(** * fix_sql.py: the SQL string-literal formatter and its command line driver

    The development embeds [fix_sql_formatting] and [main] of [fix_sql.py].
    A Python [str] is a list of Unicode code points.  The regular expression
    of the formatter is a value of a small regular-expression syntax and is
    run by a backtracking matcher that tries the alternatives in the order of
    Python's [re] module (greedy repeats longest first, lazy repeats shortest
    first); [re.sub] is the left-to-right scan over the text.  The driver runs
    in a small monad that records the file and console operations. *)

From Stdlib Require Import String Ascii.
From Stdlib Require Import List NArith ZArith Bool Lia.
Import ListNotations.

Set Implicit Arguments.

(** ** Python strings *)

Module PyStr.

Definition char : Type := N.
Definition str : Type := list char.

(** The code points of an ASCII literal of the source. *)
Definition py (s : string) : str :=
  map N_of_ascii (list_ascii_of_string s).
Arguments py s%_string.

Definition nl : char := 10%N.      (* "\n" *)
Definition space : char := 32%N.   (* " " *)
Definition comma : char := 44%N.   (* "," *)
Definition quote : char := 34%N.   (* the double quote *)

Definition spaces (n : nat) : str := repeat space n.

(** [str.isspace] on one character; the same set is the class [\s] of a
    [str] pattern: U+0009..U+000D, U+001C..U+0020, U+0085, U+00A0, U+1680,
    U+2000..U+200A, U+2028, U+2029, U+202F, U+205F, U+3000. *)
Definition isspace (c : char) : bool :=
  ((9 <=? c) && (c <=? 13) || (28 <=? c) && (c <=? 32) ||
   (c =? 133) || (c =? 160) || (c =? 5760) ||
   (8192 <=? c) && (c <=? 8202) ||
   (c =? 8232) || (c =? 8233) || (c =? 8239) || (c =? 8287) ||
   (c =? 12288))%N.

(** [s.lstrip()], [s.rstrip()], [s.strip()] *)
Fixpoint lstrip (s : str) : str :=
  match s with
  | c :: s' => if isspace c then lstrip s' else s
  | [] => []
  end.

Definition rstrip (s : str) : str := rev (lstrip (rev s)).

Definition strip (s : str) : str := rstrip (lstrip s).

(** [s.split(sep)] for a one-character separator: never the empty list. *)
Fixpoint split (sep : char) (s : str) : list str :=
  match s with
  | [] => [[]]
  | c :: s' =>
      if (c =? sep)%N then [] :: split sep s'
      else match split sep s' with
           | piece :: rest => (c :: piece) :: rest
           | [] => [[c]]
           end
  end.

(** [sep.join(l)] *)
Fixpoint join (sep : str) (l : list str) : str :=
  match l with
  | [] => []
  | [x] => x
  | x :: l' => x ++ sep ++ join sep l'
  end.

End PyStr.
Import PyStr.

(** ** Exceptions *)

Module Exn.

(** What a [raise] carries: [SystemExit] is a [BaseException] that
    [except Exception] does not catch; every other exception of the program
    is an [Exception], kept with the text [str(e)]. *)
Inductive raised : Type :=
| SystemExit (status : Z)
| Exception (msg : str).

Definition result (A : Type) : Type := (raised + A)%type.

Definition ret {A} (a : A) : result A := inr a.
Definition raise {A} (e : raised) : result A := inl e.
Definition bind {A B} (m : result A) (f : A -> result B) : result B :=
  match m with
  | inl e => inl e
  | inr a => f a
  end.

End Exn.
Import Exn.

Declare Scope py_scope.
Delimit Scope py_scope with py.
Notation "x <- m ;; f" := (bind m (fun x => f))
  (at level 61, m at next level, right associativity) : py_scope.

(** ** The regular expressions of [re] that the pattern uses *)

Module Re.

Inductive mode : Type := Greedy | Lazy.

Inductive regex : Type :=
| Eps                                   (* the empty pattern *)
| Chr (c : char)                        (* a literal character *)
| Seq (r1 r2 : regex)                   (* r1 r2 *)
| Star (m : mode) (p : char -> bool)    (* [p]* and [p]*? over a class *)
| Plus (p : char -> bool)               (* [p]+ over a class *)
| Grp (r : regex).                      (* ( r ), a capturing group *)

(** A literal word. *)
Definition lit (w : str) : regex := fold_right (fun c r => Seq (Chr c) r) Eps w.

(** The text between two positions of the subject: [s'] is a suffix of [s]. *)
Definition consumed (s s' : str) : str := firstn (length s - length s') s.

(** [p]*: as many characters as possible first, one less on failure. *)
Fixpoint star_greedy {A} (p : char -> bool) (s : str) (k : str -> option A)
  : option A :=
  match s with
  | c :: s' =>
      if p c then
        match star_greedy p s' k with
        | Some a => Some a
        | None => k s
        end
      else k s
  | [] => k s
  end.

(** [p]*?: as few characters as possible first, one more on failure. *)
Fixpoint star_lazy {A} (p : char -> bool) (s : str) (k : str -> option A)
  : option A :=
  match k s with
  | Some a => Some a
  | None =>
      match s with
      | c :: s' => if p c then star_lazy p s' k else None
      | [] => None
      end
  end.

(** The backtracking matcher: [bt r s k] matches [r] at the front of [s] and
    hands the groups captured by [r] and the rest of the subject to the
    continuation [k]; when [k] fails the next alternative of [r] is tried. *)
Fixpoint bt {A} (r : regex) (s : str) (k : list str -> str -> option A)
  : option A :=
  match r with
  | Eps => k [] s
  | Chr c =>
      match s with
      | x :: s' => if (x =? c)%N then k [] s' else None
      | [] => None
      end
  | Seq r1 r2 =>
      bt r1 s (fun g1 s1 => bt r2 s1 (fun g2 s2 => k (g1 ++ g2) s2))
  | Star Greedy p => star_greedy p s (k [])
  | Star Lazy p => star_lazy p s (k [])
  | Plus p =>
      match s with
      | x :: s' => if p x then star_greedy p s' (k []) else None
      | [] => None
      end
  | Grp r1 => bt r1 s (fun g s' => k (consumed s s' :: g) s')
  end.

(** A match object: group 0 (the whole match) followed by the groups in the
    order of their opening parentheses. *)
Definition match_obj : Type := list str.

(** [pattern.match(s)]: the match of [r] at the front of [s], if any. *)
Definition match_at (r : regex) (s : str) : option match_obj :=
  bt r s (fun g s' => Some (consumed s s' :: g)).

(** [m.group(i)]: [IndexError] outside the groups of the pattern. *)
Definition group (m : match_obj) (i : nat) : result str :=
  match nth_error m i with
  | Some g => ret g
  | None => raise (Exception (py "no such group"))
  end.

(** The scan of [re.sub(r, repl, s)] with a function [repl].  [skip] counts
    the characters of the subject that the last match still covers.  At a
    position outside a match the pattern is tried: a match is replaced by
    [repl m] and the scan resumes at its end (after an empty match, one
    character further, that character copied); without a match the character
    is copied.  An exception of [repl] ends the scan. *)
Fixpoint sub_scan (r : regex) (repl : match_obj -> result str)
    (skip : nat) (s : str) {struct s} : result str :=
  match skip with
  | S n =>
      match s with
      | [] => ret []
      | _ :: s' => sub_scan r repl n s'
      end
  | O =>
      match match_at r s with
      | Some m =>
          (new <- repl m ;;
           out <- match s with
                  | [] => ret []
                  | c :: s' =>
                      match length (nth 0 m []) with
                      | O => (out <- sub_scan r repl 0 s' ;; ret (c :: out))
                      | S n => sub_scan r repl n s'
                      end
                  end ;;
           ret (new ++ out))%py
      | None =>
          match s with
          | [] => ret []
          | c :: s' => (out <- sub_scan r repl 0 s' ;; ret (c :: out))%py
          end
      end
  end.

Definition sub (r : regex) (repl : match_obj -> result str) (s : str)
  : result str :=
  sub_scan r repl 0 s.

End Re.
Import Re.

(** ** The formatter *)

Module FixSql.

Definition any (c : char) : bool := true.                      (* . with DOTALL *)
Definition not_quote (c : char) : bool := negb (c =? quote)%N. (* [^Q] *)

Definition ws : regex := Star Greedy isspace.                  (* zero or more \s *)
Definition triple_quote : str := [quote; quote; quote].

Notation "r1 ;; r2" := (Seq r1 r2) (at level 61, right associativity).

(** The five groups of the pattern.  Written with Q for the double quote
    character and with blanks between its items, the pattern is
    ( QQQ \s* \n \s* SELECT \s* \n \s* ) ( .*? ) ( \s* \n \s* FROM \s+ )
    ( [^Q]*? ) ( \s* \n \s* QQQ ).
    The flag DOTALL is in [any]; MULTILINE has nothing to act on. *)
Definition select_body : regex :=
  lit triple_quote ;; ws ;; Chr nl ;; ws ;; lit (py "SELECT") ;;
  ws ;; Chr nl ;; ws.
Definition select_group : regex := Grp select_body.
Definition projections_group : regex := Grp (Star Lazy any).
Definition from_group : regex :=
  Grp (ws ;; Chr nl ;; ws ;; lit (py "FROM") ;; Plus isspace).
Definition table_group : regex := Grp (Star Lazy not_quote).
Definition end_group : regex := Grp (ws ;; Chr nl ;; ws ;; lit triple_quote).

(** What follows the first group. *)
Definition pattern_tail : regex :=
  projections_group ;; from_group ;; table_group ;; end_group.

Definition pattern : regex := select_group ;; pattern_tail.

(** The separator of the projections: a comma, a newline, 12 spaces. *)
Definition proj_sep : str := comma :: nl :: spaces 12.

(** [formatted_projections] from the stripped projection text. *)
Definition format_projections (projections : str) : str :=
  let proj_list := map strip (split comma projections) in
  join proj_sep proj_list.

Definition replace_projections (m : match_obj) : result str :=
  (select_part <- group m 1 ;;
   g2 <- group m 2 ;;
   let projections := strip g2 in
   from_part <- group m 3 ;;
   g4 <- group m 4 ;;
   let table_part := strip g4 in
   end_part <- group m 5 ;;
   let formatted_projections := format_projections projections in
   let formatted_table_part := nl :: spaces 12 ++ table_part in
   ret (select_part ++ spaces 12 ++ formatted_projections ++ from_part ++
        formatted_table_part ++ end_part))%py.

Definition fix_sql_formatting (content : str) : result str :=
  sub pattern replace_projections content.

End FixSql.
Import FixSql.

(** ** The command line driver *)

Module Driver.

(** The operations of the process that the outside can see. *)
Inductive event : Type :=
| Ev_print (line : str)            (* print(line) on standard output *)
| Ev_read (path : str)             (* open(path, 'r') and f.read() *)
| Ev_write (path : str) (data : str). (* open(path, 'w') and f.write(data) *)

(** What the operating system answers.  Reading a file gives its text or
    fails with an exception (file not found, permission denied, decoding
    error, ...) of which the text [str(e)] is kept; writing succeeds or fails
    likewise. *)
Record os : Type := {
  os_read : str -> str + str;
  os_write : str -> str -> option str
}.

(** Computations of the driver: they read the answers of the system, extend
    the trace of events and return a value or raise. *)
Definition IO (A : Type) : Type := os -> list event -> list event * result A.

Definition io_ret {A} (a : A) : IO A := fun _ tr => (tr, inr a).

Definition io_bind {A B} (m : IO A) (f : A -> IO B) : IO B :=
  fun w tr =>
    match m w tr with
    | (tr', inl e) => (tr', inl e)
    | (tr', inr a) => f a w tr'
    end.

Definition lift {A} (r : result A) : IO A := fun _ tr => (tr, r).

(** [print(line)]; standard output is taken to accept every line. *)
Definition print (line : str) : IO unit :=
  fun _ tr => (tr ++ [Ev_print line], inr tt).

(** [sys.exit(n)] raises [SystemExit]. *)
Definition sys_exit {A} (n : Z) : IO A := fun _ tr => (tr, inl (SystemExit n)).

(** [with open(path, 'r') as f: content = f.read()] *)
Definition read_file (path : str) : IO str :=
  fun w tr =>
    (tr ++ [Ev_read path],
     match os_read w path with
     | inl msg => inl (Exception msg)
     | inr content => inr content
     end).

(** [with open(path, 'w') as f: f.write(data)] *)
Definition write_file (path data : str) : IO unit :=
  fun w tr =>
    (tr ++ [Ev_write path data],
     match os_write w path data with
     | Some msg => inl (Exception msg)
     | None => inr tt
     end).

(** [try: body except Exception as e: handler(e)]; [SystemExit] passes. *)
Definition try_except {A} (body : IO A) (handler : str -> IO A) : IO A :=
  fun w tr =>
    match body w tr with
    | (tr', inl (Exception e)) => handler e w tr'
    | other => other
    end.

Declare Scope io_scope.
Delimit Scope io_scope with io.
Notation "x <- m ;; f" := (io_bind m (fun x => f))
  (at level 61, m at next level, right associativity) : io_scope.
Notation "m ;; f" := (io_bind m (fun _ => f))
  (at level 61, right associativity) : io_scope.

Definition usage : str := py "Usage: python3 fix_sql.py <filename>".

(** [main()] with [sys.argv = argv]. *)
Definition main (argv : list str) : IO unit :=
  ((if negb (length argv =? 2)%nat
    then (print usage ;; sys_exit 1)
    else io_ret tt) ;;
   let filename := nth 1 argv [] in
   try_except
     (content <- read_file filename ;;
      fixed_content <- lift (fix_sql_formatting content) ;;
      write_file filename fixed_content ;;
      print (py "Fixed SQL formatting in " ++ filename))
     (fun e => print (py "Error: " ++ e) ;; sys_exit 1))%io.

(** The process: the events of [main()] and the exit status.  A return from
    [main] ends the process with status 0, [SystemExit n] with status [n],
    an exception that nothing caught with status 1. *)
Definition run (argv : list str) (w : os) : list event * Z :=
  match main argv w [] with
  | (tr, inr _) => (tr, 0%Z)
  | (tr, inl (SystemExit n)) => (tr, n)
  | (tr, inl (Exception _)) => (tr, 1%Z)
  end.

(** The events that touch a file. *)
Definition is_file_event (e : event) : bool :=
  match e with
  | Ev_print _ => false
  | Ev_read _ | Ev_write _ _ => true
  end.

End Driver.
Import Driver.

(** ** Specification vocabulary *)

Module Spec.

(** [re.search]: is there a position of [s] where [r] matches? *)
Fixpoint search (r : regex) (s : str) : bool :=
  match match_at r s with
  | Some _ => true
  | None =>
      match s with
      | [] => false
      | _ :: s' => search r s'
      end
  end.

(** The words of a regular expression together with the groups they
    capture, without any order among the alternatives. *)
Inductive matches : regex -> str -> list str -> Prop :=
| M_eps : matches Eps [] []
| M_chr c : matches (Chr c) [c] []
| M_seq r1 r2 w1 w2 g1 g2 :
    matches r1 w1 g1 -> matches r2 w2 g2 ->
    matches (Seq r1 r2) (w1 ++ w2) (g1 ++ g2)
| M_star m p w : forallb p w = true -> matches (Star m p) w []
| M_plus p w : w <> [] -> forallb p w = true -> matches (Plus p) w []
| M_grp r w g : matches r w g -> matches (Grp r) w (w :: g).

(** A run of white space. *)
Definition blank (w : str) : Prop := forallb isspace w = true.

(** The shape of a region of the pattern, group by group. *)
Definition select_shape (g : str) : Prop :=
  exists a b c d, blank a /\ blank b /\ blank c /\ blank d /\
    g = triple_quote ++ a ++ [nl] ++ b ++ py "SELECT" ++ c ++ [nl] ++ d.

Definition from_shape (g : str) : Prop :=
  exists a b c, blank a /\ blank b /\ blank c /\ c <> [] /\
    g = a ++ [nl] ++ b ++ py "FROM" ++ c.

Definition end_shape (g : str) : Prop :=
  exists a b, blank a /\ blank b /\ g = a ++ [nl] ++ b ++ triple_quote.

Definition quote_free (g : str) : Prop := forallb not_quote g = true.

Definition region (g1 g2 g3 g4 g5 : str) : Prop :=
  select_shape g1 /\ from_shape g3 /\ quote_free g4 /\ end_shape g5.

(** The text that replaces a region. *)
Definition rewritten (g1 g2 g3 g4 g5 : str) : str :=
  g1 ++ spaces 12 ++ format_projections (strip g2) ++ g3 ++
  (nl :: spaces 12 ++ strip g4) ++ g5.

(** A text without the separator. *)
Definition free_of (sep : char) (s : str) : Prop :=
  forallb (fun c => negb (c =? sep)%N) s = true.

(** [r] appended to the last piece of a list of pieces. *)
Fixpoint app_last (l : list str) (r : str) : list str :=
  match l with
  | [] => [r]
  | [x] => [x ++ r]
  | x :: l' => x :: app_last l' r
  end.

(** No match of [r] starts inside [gap] when [s] follows it. *)
Definition gap_before (r : regex) (gap s : str) : Prop :=
  forall pre c suf, gap = pre ++ c :: suf -> match_at r (c :: suf ++ s) = None.

(** The frame of the substitution: [framed text out] cuts [text] into the
    gaps that hold no match, the regions that the scan matches, each between
    its opening and its closing triple quote, and a tail without a region;
    [out] has the same gaps and tail and the rewriting of every region. *)
Inductive framed : str -> str -> Prop :=
| framed_tail tail :
    search pattern tail = false -> framed tail tail
| framed_block gap a g2 g3 g4 b rest out :
    let g1 := triple_quote ++ a in
    let g5 := b ++ triple_quote in
    gap_before pattern gap (g1 ++ g2 ++ g3 ++ g4 ++ g5 ++ rest) ->
    match_at pattern (g1 ++ g2 ++ g3 ++ g4 ++ g5 ++ rest) =
      Some [g1 ++ g2 ++ g3 ++ g4 ++ g5; g1; g2; g3; g4; g5] ->
    framed rest out ->
    framed (gap ++ g1 ++ g2 ++ g3 ++ g4 ++ g5 ++ rest)
           (gap ++ rewritten g1 g2 g3 g4 g5 ++ out).

(** The matching rule in the words of the specification: the opening
    quotes, optional white space, SELECT, any text, FROM, a table without a
    double quote, white space, the closing quotes. *)
Definition loose_region (text : str) : Prop :=
  exists a projections table b,
    blank a /\ quote_free table /\ blank b /\
    text = triple_quote ++ a ++ py "SELECT" ++ projections ++ py "FROM" ++
           table ++ b ++ triple_quote.

(** The lines of a text. *)
Definition lines (s : str) : list str := split nl s.

(** Twice the formatter. *)
Definition fix_twice (text : str) : result str :=
  (out <- fix_sql_formatting text ;; fix_sql_formatting out)%py.

End Spec.
Import Spec.

(** ** Texts of the examples *)

Module Examples.

(** The input of the end-to-end scenario of the specification. *)
Definition scenario_input : str :=
  py "var q = " ++ triple_quote ++ [nl] ++
  spaces 4 ++ py "SELECT" ++ [nl] ++
  spaces 8 ++ py "Id, Name,  Email" ++ [nl] ++
  spaces 4 ++ py "FROM  Users" ++ [nl] ++
  spaces 4 ++ triple_quote ++ py ";".

(** The output that the specification prints for it. *)
Definition scenario_spec_output : str :=
  py "var q = " ++ triple_quote ++ [nl] ++
  spaces 12 ++ py "Id," ++ [nl] ++
  spaces 12 ++ py "Name," ++ [nl] ++
  spaces 12 ++ py "Email" ++ [nl] ++
  spaces 4 ++ py "FROM" ++ [nl] ++
  spaces 12 ++ py "Users" ++ [nl] ++
  spaces 4 ++ triple_quote ++ py ";".

(** The output of the formatter for it. *)
Definition scenario_output : str :=
  py "var q = " ++ triple_quote ++ [nl] ++
  spaces 4 ++ py "SELECT" ++ [nl] ++
  spaces 20 ++ py "Id," ++ [nl] ++
  spaces 12 ++ py "Name," ++ [nl] ++
  spaces 12 ++ py "Email" ++ [nl] ++
  spaces 4 ++ py "FROM  " ++ [nl] ++
  spaces 12 ++ py "Users" ++ [nl] ++
  spaces 4 ++ triple_quote ++ py ";".

(** The output of the formatter for [scenario_output]. *)
Definition scenario_output_twice : str :=
  py "var q = " ++ triple_quote ++ [nl] ++
  spaces 4 ++ py "SELECT" ++ [nl] ++
  spaces 32 ++ py "Id," ++ [nl] ++
  spaces 12 ++ py "Name," ++ [nl] ++
  spaces 12 ++ py "Email" ++ [nl] ++
  spaces 4 ++ py "FROM  " ++ [nl] ++
  spaces 12 ++ [nl] ++
  spaces 12 ++ py "Users" ++ [nl] ++
  spaces 4 ++ triple_quote ++ py ";".

(** A literal without a newline between the opening quotes and SELECT. *)
Definition select_on_quote_line : str :=
  triple_quote ++ py "SELECT" ++ [nl] ++ py "a" ++ [nl] ++
  py "FROM t" ++ [nl] ++ triple_quote.

(** A literal without a newline between SELECT and the projections. *)
Definition projection_on_select_line : str :=
  triple_quote ++ [nl] ++ py "SELECT a" ++ [nl] ++
  py "FROM t" ++ [nl] ++ triple_quote.

(** A literal that is never closed. *)
Definition unbalanced : str :=
  py "var q = " ++ triple_quote ++ [nl] ++ py "SELECT" ++ [nl] ++
  py "a" ++ [nl] ++ py "FROM t" ++ [nl] ++ py ";".

(** A region whose projection text is [a, b,c], indented as in the
    scenario. *)
Definition abc_input : str :=
  triple_quote ++ [nl] ++
  spaces 4 ++ py "SELECT" ++ [nl] ++
  spaces 8 ++ py "a, b,c" ++ [nl] ++
  spaces 4 ++ py "FROM t" ++ [nl] ++
  spaces 4 ++ triple_quote.

Definition abc_output : str :=
  triple_quote ++ [nl] ++
  spaces 4 ++ py "SELECT" ++ [nl] ++
  spaces 20 ++ py "a," ++ [nl] ++
  spaces 12 ++ py "b," ++ [nl] ++
  spaces 12 ++ py "c" ++ [nl] ++
  spaces 4 ++ py "FROM " ++ [nl] ++
  spaces 12 ++ py "t" ++ [nl] ++
  spaces 4 ++ triple_quote.

(** The match object of the pattern on [abc_input]. *)
Definition abc_match : match_obj :=
  [abc_input;
   triple_quote ++ [nl] ++ spaces 4 ++ py "SELECT" ++ [nl] ++ spaces 8;
   py "a, b,c";
   [nl] ++ spaces 4 ++ py "FROM ";
   py "t";
   [nl] ++ spaces 4 ++ triple_quote].

(** A system where every file reads as [content] and every write works. *)
Definition os_ok (content : str) : os :=
  {| os_read := fun _ => inr content; os_write := fun _ _ => None |}.

(** A system without any file. *)
Definition os_missing : os :=
  {| os_read := fun _ => inl (py "[Errno 2] No such file or directory");
     os_write := fun _ _ => None |}.

(** A system where files can be read and not written. *)
Definition os_read_only (content : str) : os :=
  {| os_read := fun _ => inr content;
     os_write := fun _ _ => Some (py "[Errno 13] Permission denied") |}.

End Examples.
Import Examples.

(** ** Vocabulary of the further properties *)

Module More.

(** The characters of a text that are not white space, in their order. *)
Definition solid (s : str) : str := filter (fun c => negb (isspace c)) s.

(** The formatter run [n] times, each run on the output of the run before. *)
Fixpoint fix_iter (n : nat) (text : str) : result str :=
  match n with
  | O => ret text
  | S n' => (out <- fix_iter n' text ;; fix_sql_formatting out)%py
  end.

(** The inside of the third group: blanks with a newline, FROM, blanks. *)
Definition from_body : regex :=
  ws ;; Chr nl ;; ws ;; lit (py "FROM") ;; Plus isspace.

(** [s.startswith(p)] and [p in s]. *)
Fixpoint prefixb (p s : str) : bool :=
  match p, s with
  | [], _ => true
  | _ :: _, [] => false
  | x :: p', y :: s' => (x =? y)%N && prefixb p' s'
  end.

Fixpoint containsb (p s : str) : bool :=
  prefixb p s ||
  match s with
  | [] => false
  | _ :: s' => containsb p s'
  end.

(** A text that is not empty and has no white space at either end. *)
Definition trimmedb (s : str) : bool :=
  match s with
  | [] => false
  | c :: _ => negb (isspace c) && negb (isspace (last s c))
  end.

(** The rest of the pattern has a word at the front of [s]: from the
    projections on, from FROM on, from the table on, from the end on. *)
Definition tail_at (s : str) : Prop :=
  exists g2 g3 g4 g5 rest,
    from_shape g3 /\ quote_free g4 /\ end_shape g5 /\
    s = g2 ++ g3 ++ g4 ++ g5 ++ rest.

Definition from_at (s : str) : Prop :=
  exists g3 g4 g5 rest,
    from_shape g3 /\ quote_free g4 /\ end_shape g5 /\
    s = g3 ++ g4 ++ g5 ++ rest.

Definition table_at (s : str) : Prop :=
  exists g4 g5 rest, quote_free g4 /\ end_shape g5 /\ s = g4 ++ g5 ++ rest.

Definition end_at (s : str) : Prop :=
  exists g5 rest, end_shape g5 /\ s = g5 ++ rest.

(** The region that the order of the alternatives prefers among the regions
    at the front of a text: the first group cannot take one more blank (the
    greedy blanks in front of the projections), no shorter projection text
    is followed by a FROM clause, a table and an end (the lazy projections),
    the third group cannot take one more blank (the greedy blanks behind
    FROM), no shorter table is followed by an end (the lazy table). *)
Definition preferred (g2 g3 g4 g5 rest : str) : Prop :=
  (forall c t, g2 ++ g3 ++ g4 ++ g5 ++ rest = c :: t ->
               isspace c = true -> ~ tail_at t) /\
  (forall p c q, g2 = p ++ c :: q ->
                 ~ from_at (c :: q ++ g3 ++ g4 ++ g5 ++ rest)) /\
  (forall c t, g4 ++ g5 ++ rest = c :: t ->
               isspace c = true -> ~ table_at t) /\
  (forall p c q, g4 = p ++ c :: q -> ~ end_at (c :: q ++ g5 ++ rest)).

(** Two literals of which neither holds a region, and the text that has
    both. *)
Definition literal_one : str :=
  triple_quote ++ [nl] ++ py "SELECT" ++ [nl] ++ py "x" ++ triple_quote.

Definition literal_two : str :=
  triple_quote ++ py "y" ++ [nl] ++ py "FROM t" ++ [nl] ++ triple_quote.

Definition pair_input : str :=
  py "a = " ++ literal_one ++ py "; b = " ++ literal_two.

Definition pair_output : str :=
  py "a = " ++ triple_quote ++ [nl] ++ py "SELECT" ++ [nl] ++
  spaces 12 ++ py "x" ++ triple_quote ++ py "; b = " ++ triple_quote ++
  py "y" ++ [nl] ++ py "FROM " ++ [nl] ++ spaces 12 ++ py "t" ++ [nl] ++
  triple_quote.

(** A region with a function call and a newline in its projections. *)
Definition coalesce_projections : str :=
  py "COALESCE(a, b) AS" ++ [nl] ++ py "  x , y".

Definition coalesce_input : str :=
  triple_quote ++ [nl] ++ py "SELECT" ++ [nl] ++
  spaces 2 ++ coalesce_projections ++ [nl] ++
  py "FROM t" ++ [nl] ++ triple_quote.

Definition coalesce_match : match_obj :=
  [coalesce_input;
   triple_quote ++ [nl] ++ py "SELECT" ++ [nl] ++ spaces 2;
   coalesce_projections;
   [nl] ++ py "FROM ";
   py "t";
   [nl] ++ triple_quote].

Definition coalesce_output : str :=
  triple_quote ++ [nl] ++ py "SELECT" ++ [nl] ++
  spaces 14 ++ py "COALESCE(a," ++ [nl] ++
  spaces 12 ++ py "b) AS" ++ [nl] ++ py "  x," ++ [nl] ++
  spaces 12 ++ py "y" ++ [nl] ++
  py "FROM " ++ [nl] ++ spaces 12 ++ py "t" ++ [nl] ++ triple_quote.

(** The groups of the region of the scenario. *)
Definition scenario_g1 : str :=
  triple_quote ++ [nl] ++ spaces 4 ++ py "SELECT" ++ [nl] ++ spaces 8.
Definition scenario_g2 : str := py "Id, Name,  Email".
Definition scenario_g3 : str := [nl] ++ spaces 4 ++ py "FROM" ++ spaces 2.
Definition scenario_g4 : str := py "Users".
Definition scenario_g5 : str := [nl] ++ spaces 4 ++ triple_quote.

End More.
Import More.

(** * Properties *)

(** ** Strings *)

Lemma isspace_comma (c : char) : isspace c = true -> (c =? comma)%N = false.
Proof.
  intros H. apply N.eqb_neq. intros ->. discriminate H.
Qed.

Lemma isspace_quote (c : char) : isspace c = true -> not_quote c = true.
Proof.
  intros H. unfold not_quote. apply negb_true_iff, N.eqb_neq.
  intros ->. discriminate H.
Qed.

Lemma blank_spaces n : blank (spaces n).
Proof.
  unfold blank, spaces. induction n; simpl; auto.
Qed.

Lemma blank_app a b : blank (a ++ b) <-> blank a /\ blank b.
Proof.
  unfold blank. rewrite forallb_app, andb_true_iff. tauto.
Qed.

(** ** The matcher *)

Lemma consumed_app (w s : str) : consumed (w ++ s) s = w.
Proof.
  unfold consumed. rewrite length_app.
  replace (length w + length s - length s) with (length w) by lia.
  rewrite firstn_app, firstn_all, Nat.sub_diag. simpl. apply app_nil_r.
Qed.

Section Stars.
Context {A : Type} (p : char -> bool) (k : str -> option A).

Lemma star_greedy_sound s a :
  star_greedy p s k = Some a ->
  exists w s', s = w ++ s' /\ forallb p w = true /\ k s' = Some a.
Proof.
  induction s as [|c s IH]; simpl.
  - intros H. exists [], []. auto.
  - destruct (p c) eqn:Hc.
    + destruct (star_greedy p s k) eqn:Hs.
      * intros [= <-]. destruct (IH eq_refl) as (w & s' & -> & Hw & Hk).
        exists (c :: w), s'. simpl. rewrite Hc. auto.
      * intros H. exists [], (c :: s). auto.
    + intros H. exists [], (c :: s). auto.
Qed.

Lemma star_greedy_complete w s' :
  forallb p w = true -> k s' <> None -> star_greedy p (w ++ s') k <> None.
Proof.
  induction w as [|c w IH]; simpl.
  - intros _ Hk. destruct s' as [|c s']; simpl; auto.
    destruct (p c); auto. destruct (star_greedy p s' k); auto. discriminate.
  - rewrite andb_true_iff. intros [-> Hw] Hk.
    specialize (IH Hw Hk). destruct (star_greedy p (w ++ s') k); congruence.
Qed.

Lemma star_lazy_sound s a :
  star_lazy p s k = Some a ->
  exists w s', s = w ++ s' /\ forallb p w = true /\ k s' = Some a.
Proof.
  induction s as [|c s IH]; simpl.
  - destruct (k []) eqn:Hk; [|discriminate]. intros [= <-]. exists [], []. auto.
  - destruct (k (c :: s)) eqn:Hk.
    + intros [= <-]. exists [], (c :: s). auto.
    + destruct (p c) eqn:Hc; [|discriminate]. intros H.
      destruct (IH H) as (w & s' & -> & Hw & Hk').
      exists (c :: w), s'. simpl. rewrite Hc. auto.
Qed.

Lemma star_lazy_complete w s' :
  forallb p w = true -> k s' <> None -> star_lazy p (w ++ s') k <> None.
Proof.
  induction w as [|c w IH]; simpl.
  - intros _ Hk. destruct s' as [|c s']; simpl; destruct (k _); congruence.
  - rewrite andb_true_iff. intros [-> Hw] Hk.
    destruct (k (c :: w ++ s')); [discriminate|]. auto.
Qed.

End Stars.

(** Every answer of the matcher is a word of the expression. *)
Lemma bt_sound {A} (r : regex) :
  forall s (k : list str -> str -> option A) a,
    bt r s k = Some a ->
    exists w g s', s = w ++ s' /\ matches r w g /\ k g s' = Some a.
Proof.
  induction r as [|c|r1 IH1 r2 IH2|m p|p|r IH]; intros s k a H; simpl in H.
  - exists [], [], s. repeat split; auto. constructor.
  - destruct s as [|x s]; [discriminate|].
    destruct (N.eqb_spec x c); [subst|discriminate].
    exists [c], [], s. repeat split; auto. constructor.
  - apply IH1 in H. destruct H as (w1 & g1 & s1 & -> & M1 & H).
    apply IH2 in H. destruct H as (w2 & g2 & s2 & -> & M2 & H).
    exists (w1 ++ w2), (g1 ++ g2), s2. rewrite app_assoc.
    repeat split; auto. constructor; auto.
  - destruct m.
    + apply star_greedy_sound in H. destruct H as (w & s' & -> & Hw & H).
      exists w, [], s'. repeat split; auto. constructor; auto.
    + apply star_lazy_sound in H. destruct H as (w & s' & -> & Hw & H).
      exists w, [], s'. repeat split; auto. constructor; auto.
  - destruct s as [|x s]; [discriminate|].
    destruct (p x) eqn:Hx; [|discriminate].
    apply star_greedy_sound in H. destruct H as (w & s' & -> & Hw & H).
    exists (x :: w), [], s'. repeat split; auto.
    constructor; [discriminate|]. simpl. rewrite Hx. auto.
  - apply IH in H. destruct H as (w & g & s' & -> & M & H).
    rewrite consumed_app in H.
    exists w, (w :: g), s'. repeat split; auto. constructor; auto.
Qed.

(** The matcher finds a match wherever the expression has a word. *)
Lemma bt_complete {A} (r : regex) w g :
  matches r w g ->
  forall s' (k : list str -> str -> option A),
    k g s' <> None -> bt r (w ++ s') k <> None.
Proof.
  induction 1 as [|c|r1 r2 w1 w2 g1 g2 M1 IH1 M2 IH2|m p w Hw|p w Hne Hw
                 |r w g M IH]; intros s' k Hk; simpl.
  - auto.
  - rewrite N.eqb_refl. auto.
  - rewrite <- app_assoc. apply IH1. apply IH2. auto.
  - destruct m; [apply star_greedy_complete|apply star_lazy_complete]; auto.
  - destruct w as [|x w]; [now elim Hne|]. simpl in *.
    apply andb_true_iff in Hw. destruct Hw as [-> Hw].
    apply star_greedy_complete; auto.
  - apply IH. rewrite consumed_app. auto.
Qed.

Lemma match_at_sound r s m :
  match_at r s = Some m ->
  exists w g s', s = w ++ s' /\ matches r w g /\ m = w :: g.
Proof.
  unfold match_at. intros H. apply bt_sound in H.
  destruct H as (w & g & s' & -> & M & H). rewrite consumed_app in H.
  exists w, g, s'. repeat split; auto. now injection H.
Qed.

Lemma match_at_complete r w g s' :
  matches r w g -> match_at r (w ++ s') <> None.
Proof.
  intros M. unfold match_at. eapply bt_complete; eauto. discriminate.
Qed.

(** ** The words of the pattern *)

Lemma matches_lit w0 : matches (lit w0) w0 [].
Proof.
  induction w0 as [|c w0 IH]; simpl.
  - constructor.
  - apply (M_seq (M_chr c) IH).
Qed.

Lemma matches_lit_inv w0 w g : matches (lit w0) w g -> w = w0 /\ g = [].
Proof.
  revert w g. induction w0 as [|c w0 IH]; simpl; intros w g H.
  - inversion H. auto.
  - inversion H as [| |r1 r2 w1 w2 g1 g2 M1 M2| | |]; subst.
    inversion M1; subst. apply IH in M2. destruct M2 as [-> ->]. auto.
Qed.

Ltac inv_matches :=
  repeat match goal with
    | H : matches (Seq _ _) _ _ |- _ => inversion H; subst; clear H
    | H : matches (Grp _) _ _ |- _ => inversion H; subst; clear H
    | H : matches (Star _ _) _ _ |- _ => inversion H; subst; clear H
    | H : matches (Plus _) _ _ |- _ => inversion H; subst; clear H
    | H : matches (Chr _) _ _ |- _ => inversion H; subst; clear H
    | H : matches Eps _ _ |- _ => inversion H; subst; clear H
    | H : matches (lit _) _ _ |- _ =>
        apply matches_lit_inv in H; destruct H as [-> ->]
    end.

Ltac split_ands := repeat match goal with |- _ /\ _ => split end.

Lemma matches_ws w : blank w -> matches ws w [].
Proof. intros H. constructor. exact H. Qed.

Lemma select_group_matches w g :
  matches select_group w g <-> select_shape w /\ g = [w].
Proof.
  unfold select_group, select_body, ws, select_shape. split.
  - intros H. inv_matches. simpl. split; [|reflexivity].
    do 4 eexists. split_ands; cycle -1; [reflexivity|assumption..].
  - intros [(a & b & c & d & Ha & Hb & Hc & Hd & ->) ->].
    apply M_grp with (g := []).
    apply (M_seq (matches_lit triple_quote)), (M_seq (matches_ws Ha)),
      (M_seq (M_chr nl)), (M_seq (matches_ws Hb)),
      (M_seq (matches_lit (py "SELECT"))), (M_seq (matches_ws Hc)),
      (M_seq (M_chr nl)), (matches_ws Hd).
Qed.

Lemma from_group_matches w g :
  matches from_group w g <-> from_shape w /\ g = [w].
Proof.
  unfold from_group, ws, from_shape. split.
  - intros H. inv_matches. simpl. split; [|reflexivity].
    do 3 eexists. split_ands; cycle -1; [reflexivity|assumption..].
  - intros [(a & b & c & Ha & Hb & Hc & Hne & ->) ->].
    apply M_grp with (g := []).
    apply (M_seq (matches_ws Ha)), (M_seq (M_chr nl)), (M_seq (matches_ws Hb)),
      (M_seq (matches_lit (py "FROM"))), (@M_plus _ _ Hne Hc).
Qed.

Lemma end_group_matches w g :
  matches end_group w g <-> end_shape w /\ g = [w].
Proof.
  unfold end_group, ws, end_shape. split.
  - intros H. inv_matches. simpl. split; [|reflexivity].
    do 2 eexists. split_ands; cycle -1; [reflexivity|assumption..].
  - intros [(a & b & Ha & Hb & ->) ->].
    apply M_grp with (g := []).
    apply (M_seq (matches_ws Ha)), (M_seq (M_chr nl)), (M_seq (matches_ws Hb)),
      (matches_lit triple_quote).
Qed.

Lemma projections_group_matches w g :
  matches projections_group w g <-> g = [w].
Proof.
  unfold projections_group. split.
  - intros H. inv_matches. reflexivity.
  - intros ->. apply M_grp with (g := []). constructor.
    unfold any. apply forallb_forall. reflexivity.
Qed.

Lemma table_group_matches w g :
  matches table_group w g <-> quote_free w /\ g = [w].
Proof.
  unfold table_group, quote_free. split.
  - intros H. inv_matches. auto.
  - intros [H ->]. apply M_grp with (g := []). constructor. exact H.
Qed.

(** The words of the pattern are the regions, with their five groups. *)
Lemma pattern_matches w g :
  matches pattern w g <->
  exists g1 g2 g3 g4 g5,
    region g1 g2 g3 g4 g5 /\ w = g1 ++ g2 ++ g3 ++ g4 ++ g5 /\
    g = [g1; g2; g3; g4; g5].
Proof.
  unfold pattern, pattern_tail, region. split.
  - intros H.
    inversion H as [| |? ? w1 x1 h1 y1 M1 H1| | |]; subst; clear H.
    inversion H1 as [| |? ? w2 x2 h2 y2 M2 H2| | |]; subst; clear H1.
    inversion H2 as [| |? ? w3 x3 h3 y3 M3 H3| | |]; subst; clear H2.
    inversion H3 as [| |? ? w4 w5 h4 h5 M4 M5| | |]; subst; clear H3.
    apply select_group_matches in M1. destruct M1 as [S1 ->].
    apply projections_group_matches in M2. subst h2.
    apply from_group_matches in M3. destruct M3 as [S3 ->].
    apply table_group_matches in M4. destruct M4 as [S4 ->].
    apply end_group_matches in M5. destruct M5 as [S5 ->].
    exists w1, w2, w3, w4, w5. simpl. auto.
  - intros (g1 & g2 & g3 & g4 & g5 & (S1 & S3 & S4 & S5) & -> & ->).
    apply (@M_seq _ _ g1 _ [g1] [g2; g3; g4; g5]);
      [apply select_group_matches; auto|].
    apply (@M_seq _ _ g2 _ [g2] [g3; g4; g5]);
      [apply projections_group_matches; auto|].
    apply (@M_seq _ _ g3 _ [g3] [g4; g5]);
      [apply from_group_matches; auto|].
    apply (@M_seq _ _ g4 _ [g4] [g5]);
      [apply table_group_matches; auto|].
    apply end_group_matches; auto.
Qed.

(** A match of the pattern is a region at the front of the subject. *)
Lemma pattern_match_at s m :
  match_at pattern s = Some m ->
  exists g1 g2 g3 g4 g5 rest,
    region g1 g2 g3 g4 g5 /\
    s = g1 ++ g2 ++ g3 ++ g4 ++ g5 ++ rest /\
    m = [g1 ++ g2 ++ g3 ++ g4 ++ g5; g1; g2; g3; g4; g5].
Proof.
  intros H. apply match_at_sound in H.
  destruct H as (w & g & s' & -> & M & ->).
  apply pattern_matches in M.
  destruct M as (g1 & g2 & g3 & g4 & g5 & R & -> & ->).
  exists g1, g2, g3, g4, g5, s'. repeat split; try apply R.
  now rewrite <- !app_assoc.
Qed.

(** Every region at the front of the subject is matched. *)
Lemma region_match_at g1 g2 g3 g4 g5 rest :
  region g1 g2 g3 g4 g5 ->
  match_at pattern (g1 ++ g2 ++ g3 ++ g4 ++ g5 ++ rest) <> None.
Proof.
  intros R.
  replace (g1 ++ g2 ++ g3 ++ g4 ++ g5 ++ rest)
    with ((g1 ++ g2 ++ g3 ++ g4 ++ g5) ++ rest)
    by now rewrite <- !app_assoc.
  eapply match_at_complete. apply pattern_matches.
  exists g1, g2, g3, g4, g5. auto.
Qed.

(** ** The scan of [re.sub] *)

Lemma sub_scan_skip r repl n :
  forall s, n <= length s ->
    sub_scan r repl n s = sub_scan r repl 0 (skipn n s).
Proof.
  induction n as [|n IH]; intros s Hn.
  - reflexivity.
  - destruct s as [|c s]; simpl in Hn; [lia|].
    simpl. apply IH. lia.
Qed.

Lemma sub_scan_cons r repl c s :
  sub_scan r repl 0 (c :: s) =
  match match_at r (c :: s) with
  | Some m =>
      (new <- repl m ;;
       out <- match length (nth 0 m []) with
              | O => (out <- sub_scan r repl 0 s ;; ret (c :: out))
              | S n => sub_scan r repl n s
              end ;;
       ret (new ++ out))%py
  | None => (out <- sub_scan r repl 0 s ;; ret (c :: out))%py
  end.
Proof. reflexivity. Qed.

(** At a match the replacement is emitted and the scan goes on behind it. *)
Lemma sub_match r repl w g rest :
  w <> [] ->
  match_at r (w ++ rest) = Some (w :: g) ->
  sub r repl (w ++ rest) =
  (new <- repl (w :: g) ;; out <- sub r repl rest ;; ret (new ++ out))%py.
Proof.
  intros Hne H. destruct w as [|c w]; [now elim Hne|].
  unfold sub. rewrite <- app_comm_cons in *. rewrite sub_scan_cons, H.
  cbn [nth length].
  rewrite (@sub_scan_skip r repl (length w) (w ++ rest))
    by (rewrite length_app; lia).
  rewrite skipn_app, skipn_all, Nat.sub_diag. reflexivity.
Qed.

(** Without a match the character is copied. *)
Lemma sub_no_match r repl c s :
  match_at r (c :: s) = None ->
  sub r repl (c :: s) = (out <- sub r repl s ;; ret (c :: out))%py.
Proof.
  intros H. unfold sub. rewrite sub_scan_cons, H. reflexivity.
Qed.

(** ** The formatter, one step of the scan at a time *)

Lemma pattern_no_match_nil : match_at pattern [] = None.
Proof. reflexivity. Qed.

Lemma fix_nil : fix_sql_formatting [] = inr [].
Proof. reflexivity. Qed.

Lemma fix_no_match c s :
  match_at pattern (c :: s) = None ->
  fix_sql_formatting (c :: s) =
  (out <- fix_sql_formatting s ;; ret (c :: out))%py.
Proof. apply sub_no_match. Qed.

Lemma select_shape_quotes g : select_shape g -> exists x, g = triple_quote ++ x.
Proof.
  intros (a & b & c & d & _ & _ & _ & _ & ->). eexists. reflexivity.
Qed.

Lemma end_shape_quotes g : end_shape g -> exists x, g = x ++ triple_quote.
Proof.
  intros (a & b & _ & _ & ->). exists (a ++ [nl] ++ b).
  now rewrite <- !app_assoc.
Qed.

Lemma replace_projections_groups w g1 g2 g3 g4 g5 :
  replace_projections [w; g1; g2; g3; g4; g5] = inr (rewritten g1 g2 g3 g4 g5).
Proof. reflexivity. Qed.

(** At a match the region is replaced by its rewriting. *)
Lemma fix_match s m :
  match_at pattern s = Some m ->
  exists g1 g2 g3 g4 g5 rest,
    region g1 g2 g3 g4 g5 /\
    s = g1 ++ g2 ++ g3 ++ g4 ++ g5 ++ rest /\
    m = [g1 ++ g2 ++ g3 ++ g4 ++ g5; g1; g2; g3; g4; g5] /\
    fix_sql_formatting s =
    (out <- fix_sql_formatting rest ;;
     ret (rewritten g1 g2 g3 g4 g5 ++ out))%py.
Proof.
  intros H. destruct (@pattern_match_at _ _ H)
    as (g1 & g2 & g3 & g4 & g5 & rest & R & -> & ->).
  exists g1, g2, g3, g4, g5, rest. split_ands; auto.
  assert (E : g1 ++ g2 ++ g3 ++ g4 ++ g5 ++ rest =
              (g1 ++ g2 ++ g3 ++ g4 ++ g5) ++ rest)
    by now rewrite <- !app_assoc.
  rewrite E in *. unfold fix_sql_formatting.
  assert (Hne : g1 ++ g2 ++ g3 ++ g4 ++ g5 <> []).
  { destruct R as (S1 & _). apply select_shape_quotes in S1.
    destruct S1 as (x & ->). discriminate. }
  rewrite (@sub_match pattern replace_projections _ _ _ Hne H).
  reflexivity.
Qed.

(** The formatter returns a text for every text. *)
Lemma fix_total_aux n :
  forall s, length s <= n -> exists out, fix_sql_formatting s = inr out.
Proof.
  induction n as [|n IH]; intros s Hn.
  - destruct s; [|simpl in Hn; lia]. exists []. reflexivity.
  - destruct (match_at pattern s) as [m|] eqn:Hm.
    + destruct (@fix_match _ _ Hm)
        as (g1 & g2 & g3 & g4 & g5 & rest & R & -> & _ & ->).
      destruct (IH rest) as (out & ->).
      * destruct R as (S1 & _). apply select_shape_quotes in S1.
        destruct S1 as (x & ->). rewrite !length_app in Hn.
        simpl in Hn. lia.
      * eexists. reflexivity.
    + destruct s as [|c s]; [exists []; reflexivity|].
      rewrite (@fix_no_match _ _ Hm). destruct (IH s) as (out & ->).
      * simpl in Hn. lia.
      * eexists. reflexivity.
Qed.

Lemma fix_total s : exists out, fix_sql_formatting s = inr out.
Proof. apply (fix_total_aux (n := length s)). lia. Qed.

(** ** Texts without a region *)

Lemma search_false_inv r c s :
  search r (c :: s) = false -> match_at r (c :: s) = None /\ search r s = false.
Proof.
  simpl. destruct (match_at r (c :: s)); [discriminate|]. auto.
Qed.

Lemma fix_search_false s :
  search pattern s = false -> fix_sql_formatting s = inr s.
Proof.
  induction s as [|c s IH]; intros H.
  - reflexivity.
  - apply search_false_inv in H. destruct H as [Hm Hs].
    rewrite (@fix_no_match _ _ Hm), (IH Hs). reflexivity.
Qed.

Lemma search_true_split r s :
  search r s = true ->
  exists gap s' m,
    s = gap ++ s' /\ match_at r s' = Some m /\ gap_before r gap s'.
Proof.
  induction s as [|c s IH]; simpl.
  - destruct (match_at r []) as [m|] eqn:Hm; [|discriminate]. intros _.
    exists [], [], m. split_ands; auto. intros [|? ?] ? ? ?; discriminate.
  - destruct (match_at r (c :: s)) as [m|] eqn:Hm.
    + intros _. exists [], (c :: s), m. split_ands; auto.
      intros [|? ?] ? ? ?; discriminate.
    + intros H. destruct (IH H) as (gap & s' & m & -> & Hs' & Hgap).
      exists (c :: gap), s', m. split_ands; auto.
      intros [|x pre] y suf E; simpl in E; injection E as -> E.
      * subst gap. exact Hm.
      * apply (Hgap _ _ _ E).
Qed.

Lemma search_app r pre s : search r s = true -> search r (pre ++ s) = true.
Proof.
  intros H. induction pre as [|c pre IH]; simpl; auto.
  destruct (match_at r (c :: pre ++ s)); auto.
Qed.

Lemma search_match_at r s : match_at r s <> None -> search r s = true.
Proof.
  destruct s; simpl; destruct (match_at r _); congruence.
Qed.

Lemma gap_before_tail r c gap s : gap_before r (c :: gap) s -> gap_before r gap s.
Proof.
  intros H pre x suf E. apply (H (c :: pre) x suf). simpl. now rewrite E.
Qed.

(** The scan copies the gap before the first match. *)
Lemma fix_gap gap s :
  gap_before pattern gap s ->
  fix_sql_formatting (gap ++ s) =
  (out <- fix_sql_formatting s ;; ret (gap ++ out))%py.
Proof.
  induction gap as [|c gap IH]; intros H; simpl.
  - destruct (fix_sql_formatting s); reflexivity.
  - rewrite fix_no_match by apply (H [] c gap eq_refl).
    rewrite IH by apply (gap_before_tail H).
    destruct (fix_sql_formatting s); reflexivity.
Qed.

(** ** Stripping, splitting and joining *)

Lemma lstrip_blank l s : blank l -> lstrip (l ++ s) = lstrip s.
Proof.
  unfold blank. induction l as [|c l IH]; simpl; auto.
  rewrite andb_true_iff. intros [-> Hl]. auto.
Qed.

Lemma lstrip_blank_nil l : blank l -> lstrip l = [].
Proof.
  intros H. rewrite <- (app_nil_r l). now rewrite lstrip_blank.
Qed.

(** [lstrip] removes a run of white space and stops at the first character
    that is not white space. *)
Lemma lstrip_spec s :
  exists l, s = l ++ lstrip s /\ blank l /\
    (lstrip s = [] \/ exists c t, lstrip s = c :: t /\ isspace c = false).
Proof.
  induction s as [|c s (l & E & Hl & Hs)]; simpl.
  - exists []. split_ands; auto. reflexivity.
  - destruct (isspace c) eqn:Hc.
    + exists (c :: l). split_ands; auto.
      * simpl. now rewrite <- E.
      * unfold blank. simpl. now rewrite Hc.
    + exists []. split_ands; auto; [reflexivity|]. right. eauto.
Qed.

Lemma lstrip_app s r :
  lstrip (s ++ r) = match lstrip s with [] => lstrip r | _ => lstrip s ++ r end.
Proof.
  induction s as [|c s IH]; simpl.
  - reflexivity.
  - destruct (isspace c); auto.
Qed.

Lemma blank_rev l : blank l -> blank (rev l).
Proof.
  unfold blank. rewrite !forallb_forall. intros H x Hx.
  apply H. now apply in_rev.
Qed.

Lemma rstrip_blank s r : blank r -> rstrip (s ++ r) = rstrip s.
Proof.
  intros H. unfold rstrip. rewrite rev_app_distr.
  now rewrite lstrip_blank by now apply blank_rev.
Qed.

Lemma rstrip_spec s : exists r, s = rstrip s ++ r /\ blank r.
Proof.
  unfold rstrip. destruct (lstrip_spec (rev s)) as (l & E & Hl & _).
  exists (rev l). split; [|now apply blank_rev].
  rewrite <- rev_app_distr, <- E. now rewrite rev_involutive.
Qed.

(** [strip] only removes white space at the two ends. *)
Lemma strip_spec s :
  exists l r, s = l ++ strip s ++ r /\ blank l /\ blank r.
Proof.
  unfold strip. destruct (lstrip_spec s) as (l & E & Hl & _).
  destruct (rstrip_spec (lstrip s)) as (r & E' & Hr).
  exists l, r. split_ands; auto. now rewrite <- E', <- E.
Qed.

Lemma strip_blank_l l s : blank l -> strip (l ++ s) = strip s.
Proof. intros H. unfold strip. now rewrite lstrip_blank. Qed.

Lemma strip_blank_r s r : blank r -> strip (s ++ r) = strip s.
Proof.
  intros H. unfold strip. rewrite lstrip_app.
  destruct (lstrip s) as [|c t] eqn:E.
  - now rewrite lstrip_blank_nil.
  - now rewrite rstrip_blank.
Qed.

Lemma strip_blank l : blank l -> strip l = [].
Proof.
  intros H. unfold strip. now rewrite lstrip_blank_nil.
Qed.

Lemma forallb_lstrip (p : char -> bool) s :
  forallb p s = true -> forallb p (lstrip s) = true.
Proof.
  induction s as [|c s IH]; simpl; auto.
  destruct (isspace c); auto. rewrite andb_true_iff. intros [_ H]. auto.
Qed.

Lemma forallb_rev (p : char -> bool) s : forallb p (rev s) = forallb p s.
Proof.
  induction s as [|c s IH]; simpl; auto.
  rewrite forallb_app, IH. simpl. rewrite andb_true_r. apply andb_comm.
Qed.

Lemma forallb_strip (p : char -> bool) s :
  forallb p s = true -> forallb p (strip s) = true.
Proof.
  intros H. unfold strip, rstrip. rewrite forallb_rev.
  apply forallb_lstrip. rewrite forallb_rev. now apply forallb_lstrip.
Qed.

Lemma blank_comma_free l : blank l -> free_of comma l.
Proof.
  unfold blank, free_of. induction l as [|c l IH]; simpl; auto.
  rewrite !andb_true_iff. intros [Hc Hl]. split; auto.
  now rewrite (isspace_comma _ Hc).
Qed.

Lemma split_not_nil sep s : split sep s <> [].
Proof.
  destruct s as [|c s]; simpl; [discriminate|].
  destruct (c =? sep)%N; [discriminate|]. destruct (split sep s); discriminate.
Qed.

Lemma split_app_free sep p s :
  free_of sep p ->
  split sep (p ++ s) =
  match split sep s with
  | h :: t => (p ++ h) :: t
  | [] => [p]
  end.
Proof.
  unfold free_of. induction p as [|c p IH]; simpl.
  - intros _. destruct (split sep s) eqn:E; auto.
    now apply split_not_nil in E.
  - rewrite andb_true_iff, negb_true_iff. intros [-> Hp].
    rewrite (IH Hp). destruct (split sep s); reflexivity.
Qed.

Lemma split_free sep p : free_of sep p -> split sep p = [p].
Proof.
  intros H. rewrite <- (app_nil_r p) at 1. rewrite (split_app_free _ H).
  simpl. now rewrite app_nil_r.
Qed.

Lemma split_sep sep s : split sep (sep :: s) = [] :: split sep s.
Proof. simpl. now rewrite N.eqb_refl. Qed.

(** Splitting is the inverse of joining pieces that hold no separator. *)
Lemma split_join sep pieces :
  pieces <> [] -> Forall (free_of sep) pieces ->
  split sep (join [sep] pieces) = pieces.
Proof.
  induction pieces as [|p pieces IH]; [congruence|]. intros _ H.
  inversion H as [|? ? Hp Hps]; subst.
  destruct pieces as [|q pieces].
  - simpl. now apply split_free.
  - change (join [sep] (p :: q :: pieces))
      with (p ++ sep :: join [sep] (q :: pieces)).
    rewrite (split_app_free _ Hp), split_sep.
    rewrite IH by (auto; discriminate). now rewrite app_nil_r.
Qed.

(** Joining is the inverse of splitting. *)
Lemma join_split sep s : join [sep] (split sep s) = s.
Proof.
  induction s as [|c s IH]; simpl; auto.
  destruct (N.eqb_spec c sep) as [->|Hc].
  - destruct (split sep s) eqn:E; [now apply split_not_nil in E|].
    simpl. simpl in IH. now rewrite IH.
  - destruct (split sep s) as [|h t] eqn:E; [now apply split_not_nil in E|].
    destruct t; simpl in *; now rewrite IH.
Qed.

Lemma split_pieces_free sep s : Forall (free_of sep) (split sep s).
Proof.
  induction s as [|c s IH]; simpl.
  - constructor; [reflexivity|constructor].
  - destruct (N.eqb_spec c sep) as [->|Hc].
    + constructor; [reflexivity|exact IH].
    + destruct (split sep s) as [|h t]; [repeat constructor|].
      * unfold free_of. simpl. apply N.eqb_neq in Hc. now rewrite Hc.
      * inversion IH; subst. constructor; auto.
        unfold free_of. simpl. apply N.eqb_neq in Hc. now rewrite Hc.
Qed.

(** One more piece than separators. *)
Lemma split_length sep s :
  length (split sep s) = S (count_occ N.eq_dec s sep).
Proof.
  induction s as [|c s IH]; simpl; auto.
  destruct (N.eqb_spec c sep) as [->|Hc].
  - simpl. rewrite IH. now destruct (N.eq_dec sep sep).
  - destruct (N.eq_dec c sep); [contradiction|].
    destruct (split sep s); simpl in *; [discriminate|auto].
Qed.

Lemma split_app_last sep s r :
  free_of sep r -> split sep (s ++ r) = app_last (split sep s) r.
Proof.
  intros Hr. induction s as [|c s IH]; simpl.
  - now apply split_free.
  - destruct (c =? sep)%N.
    + rewrite IH. destruct (split sep s) eqn:E; auto.
      now apply split_not_nil in E.
    + rewrite IH. destruct (split sep s) as [|h [|h' t]]; reflexivity.
Qed.

Lemma map_strip_app_last l r :
  l <> [] -> blank r -> map strip (app_last l r) = map strip l.
Proof.
  intros Hne Hr. induction l as [|x l IH]; [congruence|].
  destruct l as [|y l].
  - simpl. now rewrite strip_blank_r.
  - change (app_last (x :: y :: l) r) with (x :: app_last (y :: l) r).
    rewrite !(map_cons strip x). f_equal. apply IH. discriminate.
Qed.

(** Stripping the projection text before it is split changes no term. *)
Lemma map_strip_split_strip s :
  map strip (split comma (strip s)) = map strip (split comma s).
Proof.
  destruct (strip_spec s) as (l & r & E & Hl & Hr).
  rewrite E at 2.
  rewrite (split_app_free _ (blank_comma_free Hl)).
  rewrite (split_app_last _ (blank_comma_free Hr)).
  pose proof (@map_strip_app_last (split comma (strip s)) r
                (@split_not_nil comma (strip s)) Hr) as H.
  destruct (app_last (split comma (strip s)) r) as [|h t] eqn:Ea.
  - symmetry in H. apply map_eq_nil in H. now apply split_not_nil in H.
  - rewrite <- H. simpl. now rewrite strip_blank_l.
Qed.

Lemma format_projections_strip s :
  format_projections (strip s) = join proj_sep (map strip (split comma s)).
Proof. unfold format_projections. now rewrite map_strip_split_strip. Qed.

(** ** The order of the alternatives: the greedy blanks of the first group *)

Section Greedy.
Context {A : Type} (p : char -> bool) (k : str -> option A).

Lemma star_greedy_none s : star_greedy p s k = None -> k s = None.
Proof.
  intros H. destruct (k s) eqn:E; auto.
  exfalso. apply (@star_greedy_complete A p k [] s); simpl; congruence.
Qed.

(** The greedy repeat answers with the longest run that lets the rest of
    the pattern match: one character more and the rest fails. *)
Lemma star_greedy_max s a :
  star_greedy p s k = Some a ->
  exists w s', s = w ++ s' /\ forallb p w = true /\ k s' = Some a /\
    (forall c t, s' = c :: t -> p c = true -> k t = None).
Proof.
  induction s as [|c s IH]; simpl.
  - intros H. exists [], []. split_ands; auto. discriminate.
  - destruct (p c) eqn:Hc.
    + destruct (star_greedy p s k) eqn:Hs.
      * intros [= <-]. destruct (IH eq_refl) as (w & s' & -> & Hw & Hk & Hmax).
        exists (c :: w), s'. simpl. rewrite Hc. auto.
      * intros H. exists [], (c :: s). split_ands; auto.
        intros c' t [= <- <-] _. now apply star_greedy_none.
    + intros H. exists [], (c :: s). split_ands; auto.
      intros c' t [= <- <-]. congruence.
Qed.

End Greedy.

Lemma bt_seq_step {A} r1 r2 s (k : list str -> str -> option A) a :
  bt (Seq r1 r2) s k = Some a ->
  exists w1 g1 s1, s = w1 ++ s1 /\ matches r1 w1 g1 /\
    bt r2 s1 (fun g2 s2 => k (g1 ++ g2) s2) = Some a.
Proof. intros H. apply (bt_sound r1) in H. exact H. Qed.

(** The first group takes all the white space in front of the projections
    that the rest of the pattern can spare. *)
Lemma select_body_greedy {A} (k : list str -> str -> option A) s a :
  bt select_body s k = Some a ->
  exists w s', s = w ++ s' /\ select_shape w /\ k [] s' = Some a /\
    (forall c t, s' = c :: t -> isspace c = true -> k [] t = None).
Proof.
  unfold select_body. intros H.
  apply bt_seq_step in H. destruct H as (w1 & g1 & s1 & -> & M1 & H).
  apply bt_seq_step in H. destruct H as (w2 & g2 & s2 & -> & M2 & H).
  apply bt_seq_step in H. destruct H as (w3 & g3 & s3 & -> & M3 & H).
  apply bt_seq_step in H. destruct H as (w4 & g4 & s4 & -> & M4 & H).
  apply bt_seq_step in H. destruct H as (w5 & g5 & s5 & -> & M5 & H).
  apply bt_seq_step in H. destruct H as (w6 & g6 & s6 & -> & M6 & H).
  apply bt_seq_step in H. destruct H as (w7 & g7 & s7 & -> & M7 & H).
  unfold ws in *. inv_matches. simpl in H.
  apply star_greedy_max in H.
  destruct H as (w8 & s8 & -> & Hw8 & H & Hmax).
  exists (triple_quote ++ w2 ++ [nl] ++ w4 ++ py "SELECT" ++ w6 ++ [nl] ++ w8), s8.
  split_ands; auto.
  - now rewrite <- !app_assoc.
  - exists w2, w4, w6, w8. split_ands; auto.
Qed.

(** The captured projection text never starts with white space. *)
Lemma projection_head s m c t :
  match_at pattern s = Some m -> nth 2 m [] = c :: t -> isspace c = false.
Proof.
  unfold match_at, pattern, select_group. intros H Hg.
  change (bt select_body s
            (fun g s' =>
               bt pattern_tail s'
                 (fun g2 s2 =>
                    Some (consumed s s2 :: (consumed s s' :: g) ++ g2))) =
          Some m) in H.
  apply select_body_greedy in H.
  destruct H as (w & s' & -> & Hw & H & Hmax).
  apply bt_sound in H. destruct H as (w' & g & s2 & -> & M & [= <-]).
  unfold pattern_tail in M.
  inversion M as [| |? ? w2 x2 h2 y2 M2 H2| | |]; subst; clear M.
  inversion H2 as [| |? ? w3 x3 h3 y3 M3 H3| | |]; subst; clear H2.
  apply projections_group_matches in M2. subst h2.
  simpl in Hg. subst w2.
  destruct (isspace c) eqn:Hc; auto. exfalso.
  specialize (Hmax c (t ++ (w3 ++ x3) ++ s2)).
  rewrite <- !app_assoc in Hmax. specialize (Hmax eq_refl Hc).
  revert Hmax. rewrite !app_assoc. rewrite <- (app_assoc t).
  apply bt_complete with (g := [t] ++ (h3 ++ y3)); [|discriminate].
  unfold pattern_tail. constructor.
  - now apply projections_group_matches.
  - now constructor.
Qed.

(** ** A region is rewritten into a different text that holds a region *)

Lemma blank_prefix_unique u v x y tx ty :
  blank u -> blank v -> isspace x = false -> isspace y = false ->
  u ++ x :: tx = v ++ y :: ty -> u = v.
Proof.
  unfold blank. revert v. induction u as [|c u IH]; intros [|d v]; simpl; auto.
  - intros _ Hv Hx _ [= -> _]. apply andb_true_iff in Hv. destruct Hv. congruence.
  - intros Hu _ _ Hy [= -> _]. apply andb_true_iff in Hu. destruct Hu. congruence.
  - rewrite !andb_true_iff. intros [_ Hu] [_ Hv] Hx Hy [= -> E].
    f_equal. eapply IH; eauto.
Qed.

(** The rewriting of a region is again a region: the 12 spaces go to the
    projections, the new line of the table to the blanks behind FROM. *)
Lemma rewritten_region g1 g2 g3 g4 g5 :
  region g1 g2 g3 g4 g5 ->
  region g1 (spaces 12 ++ format_projections (strip g2))
         (g3 ++ nl :: spaces 12) (strip g4) g5 /\
  rewritten g1 g2 g3 g4 g5 =
  g1 ++ (spaces 12 ++ format_projections (strip g2)) ++
  (g3 ++ nl :: spaces 12) ++ strip g4 ++ g5.
Proof.
  intros (S1 & S3 & S4 & S5). split.
  - unfold region. split_ands; auto.
    + destruct S3 as (a & b & c & Ha & Hb & Hc & Hne & ->).
      exists a, b, (c ++ nl :: spaces 12). split_ands; auto.
      * apply blank_app. split; auto. reflexivity.
      * destruct c; discriminate.
      * now rewrite <- !app_assoc.
    + now apply forallb_strip.
  - unfold rewritten. rewrite <- !app_assoc. reflexivity.
Qed.

Lemma fix_first_match gap s m :
  gap_before pattern gap s -> match_at pattern s = Some m ->
  exists g1 g2 g3 g4 g5 rest out,
    region g1 g2 g3 g4 g5 /\
    s = g1 ++ g2 ++ g3 ++ g4 ++ g5 ++ rest /\
    m = [g1 ++ g2 ++ g3 ++ g4 ++ g5; g1; g2; g3; g4; g5] /\
    fix_sql_formatting rest = inr out /\
    fix_sql_formatting (gap ++ s) =
    inr (gap ++ rewritten g1 g2 g3 g4 g5 ++ out).
Proof.
  intros Hgap Hm.
  destruct (@fix_match _ _ Hm)
    as (g1 & g2 & g3 & g4 & g5 & rest & R & E & Em & F).
  destruct (fix_total rest) as (out & Hout).
  exists g1, g2, g3, g4, g5, rest, out. split_ands; auto.
  rewrite (@fix_gap _ _ Hgap), F, Hout. reflexivity.
Qed.

(** The formatter changes every text that holds a region. *)
Lemma fix_changes s :
  search pattern s = true -> fix_sql_formatting s <> inr s.
Proof.
  intros H. apply search_true_split in H.
  destruct H as (gap & s' & m & -> & Hm & Hgap).
  destruct (@fix_first_match _ _ _ Hgap Hm)
    as (g1 & g2 & g3 & g4 & g5 & rest & out & R & -> & -> & _ & ->).
  intros [= E]. apply app_inv_head in E. unfold rewritten in E.
  rewrite <- !app_assoc in E.
  apply app_inv_head in E.
  destruct g2 as [|c t].
  - destruct R as (_ & (a & b & c & Ha & Hb & Hc & _ & ->) & _).
    change (format_projections (strip [])) with (@nil char) in E.
    rewrite !app_nil_l in E.
    assert (L : spaces 12 ++ a ++ [nl] ++ b = a ++ [nl] ++ b).
    { apply (@blank_prefix_unique _ _ 70%N 70%N
               (py "ROM" ++ c ++ (nl :: spaces 12 ++ strip g4) ++ g5 ++ out)
               (py "ROM" ++ c ++ g4 ++ g5 ++ rest)).
      - repeat (apply blank_app; split); auto; reflexivity.
      - repeat (apply blank_app; split); auto; reflexivity.
      - reflexivity.
      - reflexivity.
      - rewrite <- !app_assoc in E. rewrite <- !app_assoc. exact E. }
    apply (f_equal (@length char)) in L. rewrite !length_app in L.
    simpl in L. lia.
  - assert (Hc : isspace c = false)
      by (eapply projection_head; [exact Hm|reflexivity]).
    injection E as <- _. discriminate Hc.
Qed.

(** The output for a text that holds a region holds a region too. *)
Lemma fix_keeps_region s out :
  search pattern s = true -> fix_sql_formatting s = inr out ->
  search pattern out = true.
Proof.
  intros H. apply search_true_split in H.
  destruct H as (gap & s' & m & -> & Hm & Hgap).
  destruct (@fix_first_match _ _ _ Hgap Hm)
    as (g1 & g2 & g3 & g4 & g5 & rest & out' & R & -> & -> & _ & ->).
  intros [= <-]. apply search_app, search_match_at.
  destruct (@rewritten_region _ _ _ _ _ R) as (R' & ->).
  assert (E : (g1 ++ (spaces 12 ++ format_projections (strip g2)) ++
               (g3 ++ nl :: spaces 12) ++ strip g4 ++ g5) ++ out' =
              g1 ++ (spaces 12 ++ format_projections (strip g2)) ++
              (g3 ++ nl :: spaces 12) ++ strip g4 ++ g5 ++ out')
    by (rewrite <- !app_assoc; reflexivity).
  rewrite E. now apply region_match_at.
Qed.

(** * The claims *)

(** ** The end-to-end scenario *)

Lemma scenario_eval : fix_sql_formatting scenario_input = inr scenario_output.
Proof. vm_compute. reflexivity. Qed.

Lemma scenario_eval_twice :
  fix_sql_formatting scenario_output = inr scenario_output_twice.
Proof. vm_compute. reflexivity. Qed.

(** C1, counterexample: on the scenario of the specification a second run
    of the formatter changes the text again: the first projection moves 12
    columns further and an empty line of 12 spaces appears before the
    table. *)
Lemma formatter_not_idempotent :
  fix_twice scenario_input = inr scenario_output_twice /\
  fix_sql_formatting scenario_input = inr scenario_output /\
  fix_twice scenario_input <> fix_sql_formatting scenario_input.
Proof.
  unfold fix_twice. rewrite scenario_eval. simpl bind.
  rewrite scenario_eval_twice. split_ands; [reflexivity|reflexivity|].
  intros H. vm_compute in H. discriminate H.
Qed.

(** C1, amended: the formatter applied twice gives the result of the
    formatter applied once exactly for the texts that hold no region of the
    pattern (which the formatter returns unchanged); for every text with a
    region the second run changes the text again. *)
Theorem formatter_idempotent_iff_no_region (text : str) :
  fix_twice text = fix_sql_formatting text <-> search pattern text = false.
Proof.
  unfold fix_twice. split.
  - intros H. destruct (search pattern text) eqn:Hs; auto. exfalso.
    destruct (fix_total text) as (out & Hout). rewrite Hout in H.
    simpl in H. apply (@fix_changes out); auto.
    apply (@fix_keeps_region text out); auto.
  - intros H. rewrite (fix_search_false _ H). simpl.
    apply (fix_search_false _ H).
Qed.

(** C2, counterexample: the output that the specification prints for the
    scenario is not the output of the formatter. *)
Lemma scenario_differs_from_spec :
  fix_sql_formatting scenario_input <> inr scenario_spec_output.
Proof.
  rewrite scenario_eval. intros H. vm_compute in H. discriminate H.
Qed.

(** C2, amended: on the scenario input the formatter keeps the opening
    quotes and the SELECT line, puts [Id,] behind the 8 spaces of the input
    and 12 more, [Name,] and [Email] on lines of their own behind 12 spaces,
    keeps the FROM line with its two spaces, puts [Users] on a line of its
    own behind 12 spaces and keeps the closing line and the text around. *)
Theorem scenario_formats :
  fix_sql_formatting scenario_input = inr scenario_output.
Proof. exact scenario_eval. Qed.

(** ** The matching rule *)

(** C3, counterexample: a literal with SELECT on the line of the opening
    quotes and a literal with the projections on the line of SELECT have
    the shape of the claim; the pattern matches neither and the formatter
    returns both unchanged. *)
Lemma newline_required :
  loose_region select_on_quote_line /\
  match_at pattern select_on_quote_line = None /\
  fix_sql_formatting select_on_quote_line = inr select_on_quote_line /\
  loose_region projection_on_select_line /\
  match_at pattern projection_on_select_line = None /\
  fix_sql_formatting projection_on_select_line =
    inr projection_on_select_line.
Proof.
  split_ands; try (vm_compute; reflexivity).
  - exists [], ([nl] ++ py "a" ++ [nl]), (py " t"), [nl].
    split_ands; reflexivity.
  - exists [nl], (py " a" ++ [nl]), (py " t"), [nl].
    split_ands; reflexivity.
Qed.

(** ** Texts without a region *)

(** C4: a text in which the pattern matches nowhere is returned as it is,
    and no exception is raised. *)
Theorem no_region_noop (text : str) :
  search pattern text = false -> fix_sql_formatting text = inr text.
Proof. apply fix_search_false. Qed.

(** C4, witness: a literal that is never closed. *)
Lemma no_region_noop_witness :
  search pattern unbalanced = false /\
  fix_sql_formatting unbalanced = inr unbalanced.
Proof.
  split; [vm_compute; reflexivity|].
  apply (no_region_noop unbalanced). vm_compute. reflexivity.
Defined.

(** ** The frame of the substitution *)

Lemma frame_aux n :
  forall text, length text <= n ->
    exists out, fix_sql_formatting text = inr out /\ framed text out.
Proof.
  induction n as [|n IH]; intros text Hn.
  - destruct text; [|simpl in Hn; lia]. exists []. split; auto.
    now apply framed_tail.
  - destruct (search pattern text) eqn:Hs.
    + apply search_true_split in Hs.
      destruct Hs as (gap & s' & m & -> & Hm & Hgap).
      destruct (@fix_first_match _ _ _ Hgap Hm)
        as (g1 & g2 & g3 & g4 & g5 & rest & out & R & -> & -> & Hout & F).
      exists (gap ++ rewritten g1 g2 g3 g4 g5 ++ out). split; auto.
      destruct R as (S1 & _ & _ & S5).
      apply select_shape_quotes in S1. destruct S1 as (a & ->).
      apply end_shape_quotes in S5. destruct S5 as (b & ->).
      apply framed_block; auto.
      destruct (IH rest) as (out' & Hout' & Hf).
      * rewrite !length_app in Hn. simpl in Hn. lia.
      * congruence.
    + exists text. split; [now apply fix_search_false|now apply framed_tail].
Qed.

(** C5, counterexample: two literals of which neither holds a region, so
    that the formatter returns each of them unchanged; in the text that has
    both, the pattern matches from the opening quotes of the first to the
    closing quotes of the second, and neither literal is in the output any
    more. *)
Lemma literal_pair_rewritten :
  search pattern literal_one = false /\
  search pattern literal_two = false /\
  fix_sql_formatting literal_one = inr literal_one /\
  fix_sql_formatting literal_two = inr literal_two /\
  containsb literal_one pair_input = true /\
  containsb literal_two pair_input = true /\
  fix_sql_formatting pair_input = inr pair_output /\
  containsb literal_one pair_output = false /\
  containsb literal_two pair_output = false.
Proof. split_ands; vm_compute; reflexivity. Qed.

(** C5, amended: the output is the input with every matched region
    replaced by its rewriting; the gaps between the matched regions and the
    text before the first and after the last of them are copied character
    for character and in their order, and the rewriting of a region still
    starts with its opening and ends with its closing triple quote.  A
    literal is copied when it lies in a gap or in the tail; a match can
    start at the opening quotes of one literal and end at the closing
    quotes of a later one, and then what lies between is rewritten. *)
Theorem substitution_frame (text : str) :
  exists out, fix_sql_formatting text = inr out /\ framed text out.
Proof. apply (@frame_aux (length text)). lia. Qed.

(** An instance of the frame: a literal that does not match, a region and
    the text around them. *)
Example frame_example :
  fix_sql_formatting
    (py "x = " ++ select_on_quote_line ++ py " + " ++ abc_input ++ py ";") =
  inr (py "x = " ++ select_on_quote_line ++ py " + " ++ abc_output ++ py ";").
Proof. vm_compute. reflexivity. Qed.

(** ** Splitting the projections *)

Lemma abc_eval : fix_sql_formatting abc_input = inr abc_output.
Proof. vm_compute. reflexivity. Qed.

(** C6, counterexample: in a region whose projection text [a, b,c] is
    indented by 8 spaces, [b,] and [c] come out on lines of their own behind
    12 spaces, and [a,] comes out behind 20 spaces: no line of the output is
    12 spaces followed by [a,]. *)
Lemma first_projection_indent :
  fix_sql_formatting abc_input = inr abc_output /\
  In (spaces 12 ++ py "b,") (lines abc_output) /\
  In (spaces 12 ++ py "c") (lines abc_output) /\
  In (spaces 20 ++ py "a,") (lines abc_output) /\
  ~ In (spaces 12 ++ py "a,") (lines abc_output).
Proof.
  split; [exact abc_eval|]. vm_compute.
  split_ands; [tauto|tauto|tauto|].
  intros H. repeat (destruct H as [H|H]; [discriminate H|]). exact H.
Qed.

(** C6, amended: where the pattern matches, the captured projection text is
    stripped, split at its commas, each term stripped, and the terms are
    joined with a comma, a newline and 12 spaces; the result is put behind
    the captured first group and 12 spaces.  For the projection text
    [a, b,c] this gives [a,] behind the first group and 12 spaces, then [b,]
    and [c] each on a line of its own behind exactly 12 spaces; the first
    group ends with the white space that the input has in front of the
    projections, so [a,] is behind exactly 12 spaces only when the input has
    none there. *)
Theorem projections_split (text : str) (m : match_obj) :
  match_at pattern text = Some m ->
  exists g1 g2 g3 g4 g5 rest out,
    text = g1 ++ g2 ++ g3 ++ g4 ++ g5 ++ rest /\
    m = [g1 ++ g2 ++ g3 ++ g4 ++ g5; g1; g2; g3; g4; g5] /\
    fix_sql_formatting rest = inr out /\
    fix_sql_formatting text =
      inr (g1 ++ spaces 12 ++
           join (comma :: nl :: spaces 12)
                (map strip (split comma (strip g2))) ++
           g3 ++ (nl :: spaces 12 ++ strip g4) ++ g5 ++ out) /\
    (g2 = py "a, b,c" ->
     fix_sql_formatting text =
       inr (g1 ++ (spaces 12 ++ py "a,") ++ [nl] ++
            (spaces 12 ++ py "b,") ++ [nl] ++
            (spaces 12 ++ py "c") ++
            g3 ++ (nl :: spaces 12 ++ strip g4) ++ g5 ++ out)).
Proof.
  intros Hm.
  assert (Hgap : gap_before pattern [] text)
    by (intros [|? ?] ? ? ?; discriminate).
  destruct (@fix_first_match _ _ _ Hgap Hm)
    as (g1 & g2 & g3 & g4 & g5 & rest & out & R & -> & -> & Hout & F).
  exists g1, g2, g3, g4, g5, rest, out.
  assert (E : fix_sql_formatting (g1 ++ g2 ++ g3 ++ g4 ++ g5 ++ rest) =
              inr (g1 ++ spaces 12 ++
                   join (comma :: nl :: spaces 12)
                        (map strip (split comma (strip g2))) ++
                   g3 ++ (nl :: spaces 12 ++ strip g4) ++ g5 ++ out)).
  { simpl app in F. rewrite F. unfold rewritten, format_projections, proj_sep.
    rewrite <- !app_assoc. reflexivity. }
  split_ands; auto.
  intros ->. rewrite E. reflexivity.
Qed.

(** C6, witness: the region with the projection text [a, b,c]. *)
Lemma projections_split_witness :
  match_at pattern abc_input = Some abc_match /\
  exists g1 g3 g4 g5 out,
    fix_sql_formatting abc_input =
      inr (g1 ++ (spaces 12 ++ py "a,") ++ [nl] ++
           (spaces 12 ++ py "b,") ++ [nl] ++
           (spaces 12 ++ py "c") ++
           g3 ++ (nl :: spaces 12 ++ strip g4) ++ g5 ++ out).
Proof.
  assert (Hm : match_at pattern abc_input = Some abc_match)
    by (vm_compute; reflexivity).
  split; [exact Hm|].
  destruct (projections_split abc_input Hm)
    as (g1 & g2 & g3 & g4 & g5 & rest & out & _ & Em & _ & _ & H).
  exists g1, g3, g4, g5, out. apply H.
  injection Em as _ _ E _ _ _. symmetry. exact E.
Defined.

(** ** Comma splitting *)

(** C10: within every matched region every comma of the captured
    projection text is a split point, whatever is around it: the terms are
    the pieces between the commas, one more than there are commas, and
    joined with commas they give the projection text back; in the output
    of the formatter each piece stands stripped at its two ends only, the
    pieces joined by a comma, a newline and 12 spaces, so that what a piece
    has between its ends, white space and newlines included, is kept as it
    is. *)
Theorem comma_split_context_blind (text : str) (m : match_obj) :
  match_at pattern text = Some m ->
  exists g1 g2 g3 g4 g5 rest out,
    text = g1 ++ g2 ++ g3 ++ g4 ++ g5 ++ rest /\
    m = [g1 ++ g2 ++ g3 ++ g4 ++ g5; g1; g2; g3; g4; g5] /\
    fix_sql_formatting rest = inr out /\
    join [comma] (split comma g2) = g2 /\
    Forall (free_of comma) (split comma g2) /\
    length (split comma g2) = S (count_occ N.eq_dec g2 comma) /\
    Forall (fun p => exists l r, p = l ++ strip p ++ r /\ blank l /\ blank r)
           (split comma g2) /\
    fix_sql_formatting text =
      inr (g1 ++ spaces 12 ++
           join (comma :: nl :: spaces 12) (map strip (split comma g2)) ++
           g3 ++ (nl :: spaces 12 ++ strip g4) ++ g5 ++ out).
Proof.
  intros Hm.
  assert (Hgap : gap_before pattern [] text)
    by (intros [|? ?] ? ? ?; discriminate).
  destruct (@fix_first_match _ _ _ Hgap Hm)
    as (g1 & g2 & g3 & g4 & g5 & rest & out & R & -> & -> & Hout & F).
  exists g1, g2, g3, g4, g5, rest, out. split_ands; auto.
  - apply join_split.
  - apply split_pieces_free.
  - apply split_length.
  - apply Forall_forall. intros p _. apply strip_spec.
  - simpl app in F. rewrite F. unfold rewritten.
    rewrite format_projections_strip. unfold proj_sep.
    rewrite <- !app_assoc. reflexivity.
Qed.

(** C10, witness: in a matched region the comma inside the parentheses of
    COALESCE(a, b) is a split point, and the newline inside the second
    piece stays. *)
Lemma comma_split_context_blind_witness :
  match_at pattern coalesce_input = Some coalesce_match /\
  exists g1 g3 g4 g5 out,
    fix_sql_formatting coalesce_input =
      inr (g1 ++ spaces 12 ++
           join (comma :: nl :: spaces 12)
                (map strip (split comma coalesce_projections)) ++
           g3 ++ (nl :: spaces 12 ++ strip g4) ++ g5 ++ out).
Proof.
  assert (Hm : match_at pattern coalesce_input = Some coalesce_match)
    by (vm_compute; reflexivity).
  split; [exact Hm|].
  destruct (comma_split_context_blind coalesce_input Hm)
    as (g1 & g2 & g3 & g4 & g5 & rest & out & _ & Em & _ & _ & _ & _ & _ & H).
  exists g1, g3, g4, g5, out.
  injection Em as _ _ E _ _ _. rewrite E. exact H.
Defined.

(** The output for that region. *)
Example coalesce_eval : fix_sql_formatting coalesce_input = inr coalesce_output.
Proof. vm_compute. reflexivity. Qed.

(** ** The driver *)

(** C7: with an argument vector whose length is not 2 the process prints
    the usage line on standard output and exits with status 1; it performs
    no file operation. *)
Theorem usage_error (argv : list str) (w : os) :
  length argv <> 2 ->
  run argv w = ([Ev_print usage], 1%Z) /\
  filter is_file_event (fst (run argv w)) = [].
Proof.
  intros H. assert (E : run argv w = ([Ev_print usage], 1%Z)).
  { unfold run, main, io_bind, print, sys_exit.
    destruct (Nat.eqb_spec (length argv) 2) as [E|_]; [contradiction|].
    reflexivity. }
  rewrite E. split; reflexivity.
Qed.

(** C7, witness: no file name, and two file names. *)
Lemma usage_error_witness :
  (run [py "fix_sql.py"] os_missing = ([Ev_print usage], 1%Z) /\
   filter is_file_event (fst (run [py "fix_sql.py"] os_missing)) = []) /\
  (run [py "fix_sql.py"; py "a.cs"; py "b.cs"] (os_ok []) =
     ([Ev_print usage], 1%Z) /\
   filter is_file_event
     (fst (run [py "fix_sql.py"; py "a.cs"; py "b.cs"] (os_ok []))) = []).
Proof.
  split.
  - apply (@usage_error [py "fix_sql.py"] os_missing). simpl. lia.
  - apply (@usage_error [py "fix_sql.py"; py "a.cs"; py "b.cs"] (os_ok [])).
    simpl. lia.
Defined.

Lemma run_two_args prog path w :
  run [prog; path] w =
  match os_read w path with
  | inl msg => ([Ev_read path; Ev_print (py "Error: " ++ msg)], 1%Z)
  | inr content =>
      match fix_sql_formatting content with
      | inl (Exception msg) =>
          ([Ev_read path; Ev_print (py "Error: " ++ msg)], 1%Z)
      | inl (SystemExit n) => ([Ev_read path], n)
      | inr fixed =>
          match os_write w path fixed with
          | Some msg =>
              ([Ev_read path; Ev_write path fixed;
                Ev_print (py "Error: " ++ msg)], 1%Z)
          | None =>
              ([Ev_read path; Ev_write path fixed;
                Ev_print (py "Fixed SQL formatting in " ++ path)], 0%Z)
          end
      end
  end.
Proof.
  unfold run, main, io_bind, io_ret, try_except, read_file, write_file, lift,
    print, sys_exit.
  cbn [length Nat.eqb negb nth app].
  destruct (os_read w path) as [msg|content]; [reflexivity|].
  destruct (fix_sql_formatting content) as [[n|msg]|fixed]; try reflexivity.
  destruct (os_write w path fixed); reflexivity.
Qed.

(** C8: with one file name, an exception raised while the file is opened
    or read, or while the result is written, is caught: the process prints
    its message behind [Error: ] on standard output and exits with status 1;
    when nothing fails the text of the formatter is written to the same
    path, a confirmation that names the file is printed and the status is
    0. *)
Theorem io_errors_reported (prog path : str) (w : os) :
  (forall msg, os_read w path = inl msg ->
     run [prog; path] w =
       ([Ev_read path; Ev_print (py "Error: " ++ msg)], 1%Z)) /\
  (forall content fixed msg,
     os_read w path = inr content ->
     fix_sql_formatting content = inr fixed ->
     os_write w path fixed = Some msg ->
     run [prog; path] w =
       ([Ev_read path; Ev_write path fixed; Ev_print (py "Error: " ++ msg)],
        1%Z)) /\
  (forall content fixed,
     os_read w path = inr content ->
     fix_sql_formatting content = inr fixed ->
     os_write w path fixed = None ->
     run [prog; path] w =
       ([Ev_read path; Ev_write path fixed;
         Ev_print (py "Fixed SQL formatting in " ++ path)], 0%Z)).
Proof.
  split_ands.
  - intros msg H. now rewrite run_two_args, H.
  - intros content fixed msg H1 H2 H3. now rewrite run_two_args, H1, H2, H3.
  - intros content fixed H1 H2 H3. now rewrite run_two_args, H1, H2, H3.
Qed.

(** C8, witness: a missing file, a file that cannot be written, and a run
    without failure on the scenario. *)
Lemma io_errors_reported_witness :
  run [py "fix_sql.py"; py "q.cs"] os_missing =
    ([Ev_read (py "q.cs");
      Ev_print (py "Error: [Errno 2] No such file or directory")], 1%Z) /\
  run [py "fix_sql.py"; py "q.cs"] (os_read_only scenario_input) =
    ([Ev_read (py "q.cs"); Ev_write (py "q.cs") scenario_output;
      Ev_print (py "Error: [Errno 13] Permission denied")], 1%Z) /\
  run [py "fix_sql.py"; py "q.cs"] (os_ok scenario_input) =
    ([Ev_read (py "q.cs"); Ev_write (py "q.cs") scenario_output;
      Ev_print (py "Fixed SQL formatting in q.cs")], 0%Z).
Proof.
  split_ands.
  - apply (proj1 (io_errors_reported (py "fix_sql.py") (py "q.cs")
                    os_missing)).
    reflexivity.
  - apply (proj1 (proj2 (io_errors_reported (py "fix_sql.py") (py "q.cs")
                           (os_read_only scenario_input)))
             scenario_input scenario_output
             (py "[Errno 13] Permission denied")).
    + reflexivity.
    + vm_compute. reflexivity.
    + reflexivity.
  - apply (proj2 (proj2 (io_errors_reported (py "fix_sql.py") (py "q.cs")
                           (os_ok scenario_input)))
             scenario_input scenario_output).
    + reflexivity.
    + vm_compute. reflexivity.
    + reflexivity.
Defined.

(** ** Totality *)

(** C9: the formatter returns a text for every text and raises nothing;
    an empty projection text gives the single empty term; hence, once the
    file has been read, the driver reaches the write with the text of the
    formatter, and when the write works it confirms and exits with
    status 0. *)
Theorem formatter_total (content : str) :
  (exists out, fix_sql_formatting content = inr out) /\
  split comma (strip []) = [[]] /\
  format_projections (strip []) = [] /\
  (forall prog path w,
     os_read w path = inr content ->
     exists fixed,
       fix_sql_formatting content = inr fixed /\
       In (Ev_write path fixed) (fst (run [prog; path] w)) /\
       (os_write w path fixed = None ->
        run [prog; path] w =
          ([Ev_read path; Ev_write path fixed;
            Ev_print (py "Fixed SQL formatting in " ++ path)], 0%Z))).
Proof.
  split_ands; try reflexivity.
  - apply fix_total.
  - intros prog path w Hr. destruct (fix_total content) as (fixed & Hf).
    exists fixed. rewrite run_two_args, Hr, Hf. split_ands; auto.
    + destruct (os_write w path fixed); simpl; auto.
    + now intros ->.
Qed.

(** C9, witness: the driver on a readable and writable file. *)
Lemma formatter_total_witness :
  exists fixed,
    fix_sql_formatting unbalanced = inr fixed /\
    In (Ev_write (py "q.cs") fixed)
       (fst (run [py "fix_sql.py"; py "q.cs"] (os_ok unbalanced))) /\
    (os_write (os_ok unbalanced) (py "q.cs") fixed = None ->
     run [py "fix_sql.py"; py "q.cs"] (os_ok unbalanced) =
       ([Ev_read (py "q.cs"); Ev_write (py "q.cs") fixed;
         Ev_print (py "Fixed SQL formatting in " ++ py "q.cs")], 0%Z)).
Proof.
  apply (proj2 (proj2 (proj2 (formatter_total unbalanced)))
           (py "fix_sql.py") (py "q.cs") (os_ok unbalanced)).
  reflexivity.
Defined.

(** * Further properties of the formatter and of the driver *)

(** ** The order of the alternatives: lazy repeats and the blanks after FROM *)

(** The lazy repeat answers with the shortest run that lets the rest of the
    pattern match: at every shorter run the rest fails. *)
Lemma star_lazy_min {A} (p : char -> bool) (k : str -> option A) s a :
  star_lazy p s k = Some a ->
  exists w s', s = w ++ s' /\ forallb p w = true /\ k s' = Some a /\
    (forall w1 c w2, w = w1 ++ c :: w2 -> k (c :: w2 ++ s') = None).
Proof.
  induction s as [|c s IH]; simpl.
  - destruct (k []) eqn:Hk; [|discriminate]. intros [= <-].
    exists [], []. split_ands; auto. intros [|? ?] ? ? ?; discriminate.
  - destruct (k (c :: s)) eqn:Hk.
    + intros [= <-]. exists [], (c :: s). split_ands; auto.
      intros [|? ?] ? ? ?; discriminate.
    + destruct (p c) eqn:Hc; [|discriminate]. intros H.
      destruct (IH H) as (w & s' & -> & Hw & Hk' & Hmin).
      exists (c :: w), s'. simpl. rewrite Hc. split_ands; auto.
      intros [|x w1] y w2 E; simpl in E; injection E as -> E.
      * subst w. exact Hk.
      * apply (Hmin _ _ _ E).
Qed.

(** A lazy group in front of [r]: the group is the shortest text behind
    which [r] and the rest match. *)
Lemma bt_lazy_group_min {A} p r s (k : list str -> str -> option A) a :
  bt (Seq (Grp (Star Lazy p)) r) s k = Some a ->
  exists w s', s = w ++ s' /\ forallb p w = true /\
    bt r s' (fun g2 s2 => k ([w] ++ g2) s2) = Some a /\
    (forall w1 c w2, w = w1 ++ c :: w2 ->
       bt r (c :: w2 ++ s') (fun g2 s2 => k ([w1] ++ g2) s2) = None).
Proof.
  intros H.
  change (star_lazy p s
            (fun s' => bt r s'
                         (fun g2 s2 => k ((consumed s s' :: []) ++ g2) s2)) =
          Some a) in H.
  apply star_lazy_min in H. destruct H as (w & s' & -> & Hw & H & Hmin).
  rewrite consumed_app in H. exists w, s'. split_ands; auto.
  intros w1 c w2 E. specialize (Hmin w1 c w2 E). subst w.
  replace ((w1 ++ c :: w2) ++ s') with (w1 ++ c :: w2 ++ s') in Hmin
    by now rewrite <- app_assoc.
  now rewrite consumed_app in Hmin.
Qed.

(** The third group takes all the white space behind FROM that the rest of
    the pattern can spare. *)
Lemma from_body_greedy {A} (k : list str -> str -> option A) s a :
  bt from_body s k = Some a ->
  exists w s', s = w ++ s' /\ from_shape w /\ k [] s' = Some a /\
    (forall c t, s' = c :: t -> isspace c = true -> k [] t = None).
Proof.
  unfold from_body. intros H.
  apply bt_seq_step in H. destruct H as (w1 & g1 & s1 & -> & M1 & H).
  apply bt_seq_step in H. destruct H as (w2 & g2 & s2 & -> & M2 & H).
  apply bt_seq_step in H. destruct H as (w3 & g3 & s3 & -> & M3 & H).
  apply bt_seq_step in H. destruct H as (w4 & g4 & s4 & -> & M4 & H).
  unfold ws in *. inv_matches. simpl in H.
  destruct s4 as [|x s4]; [discriminate|].
  destruct (isspace x) eqn:Hx; [|discriminate].
  apply star_greedy_max in H.
  destruct H as (w5 & s5 & -> & Hw5 & H & Hmax).
  exists (w1 ++ [nl] ++ w3 ++ py "FROM" ++ x :: w5), s5.
  split_ands; auto.
  - now rewrite <- !app_assoc.
  - exists w1, w3, (x :: w5). split_ands; auto.
    + unfold blank. simpl. now rewrite Hx.
    + discriminate.
Qed.

Lemma from_shape_cons c g : isspace c = true -> from_shape g -> from_shape (c :: g).
Proof.
  intros Hc (a & b & d & Ha & Hb & Hd & Hne & ->).
  exists (c :: a), b, d. split_ands; auto.
  unfold blank. simpl. now rewrite Hc.
Qed.

Lemma end_shape_cons c g : isspace c = true -> end_shape g -> end_shape (c :: g).
Proof.
  intros Hc (a & b & Ha & Hb & ->).
  exists (c :: a), b. split_ands; auto.
  unfold blank. simpl. now rewrite Hc.
Qed.

Lemma matches_after_projections g3 g4 g5 :
  from_shape g3 -> quote_free g4 -> end_shape g5 ->
  matches (from_group ;; table_group ;; end_group)
          (g3 ++ g4 ++ g5) ([g3] ++ [g4] ++ [g5]).
Proof.
  intros S3 S4 S5. constructor; [now apply from_group_matches|].
  constructor; [now apply table_group_matches|now apply end_group_matches].
Qed.

Lemma matches_after_projections_inv w g :
  matches (from_group ;; table_group ;; end_group) w g ->
  exists g3 g4 g5, from_shape g3 /\ quote_free g4 /\ end_shape g5 /\
    w = g3 ++ g4 ++ g5 /\ g = [g3; g4; g5].
Proof.
  intros M.
  inversion M as [| |? ? w3 x3 h3 y3 M3 H3| | |]; subst; clear M.
  inversion H3 as [| |? ? w4 w5 h4 h5 M4 M5| | |]; subst; clear H3.
  apply from_group_matches in M3. destruct M3 as [S3 ->].
  apply table_group_matches in M4. destruct M4 as [S4 ->].
  apply end_group_matches in M5. destruct M5 as [S5 ->].
  exists w3, w4, w5. split_ands; auto.
Qed.

(** The captured projection text never ends with white space. *)
Lemma projection_last s m x c :
  match_at pattern s = Some m -> nth 2 m [] = x ++ [c] -> isspace c = false.
Proof.
  unfold match_at, pattern. intros H Hg.
  apply bt_seq_step in H. destruct H as (w1 & g1 & s1 & -> & M1 & H).
  apply select_group_matches in M1. destruct M1 as [_ ->].
  unfold pattern_tail, projections_group in H.
  apply bt_lazy_group_min in H. destruct H as (w & s' & -> & _ & H & Hmin).
  apply bt_sound in H. destruct H as (w' & g & s2 & -> & M & [= <-]).
  apply matches_after_projections_inv in M.
  destruct M as (g3 & g4 & g5 & S3 & S4 & S5 & -> & ->).
  simpl in Hg. subst w.
  destruct (isspace c) eqn:Hc; auto. exfalso.
  specialize (Hmin x c [] eq_refl). simpl app in Hmin. revert Hmin.
  change (c :: (g3 ++ g4 ++ g5) ++ s2) with ((c :: g3 ++ g4 ++ g5) ++ s2).
  apply bt_complete with (g := [c :: g3] ++ [g4] ++ [g5]); [|discriminate].
  apply (@matches_after_projections (c :: g3) g4 g5); auto.
  now apply from_shape_cons.
Qed.

(** The captured table text never starts with white space. *)
Lemma table_head s m c t :
  match_at pattern s = Some m -> nth 4 m [] = c :: t -> isspace c = false.
Proof.
  unfold match_at, pattern. intros H Hg.
  apply bt_seq_step in H. destruct H as (w1 & g1 & s1 & -> & M1 & H).
  apply select_group_matches in M1. destruct M1 as [_ ->].
  unfold pattern_tail in H.
  apply bt_seq_step in H. destruct H as (w2 & g2 & s2 & -> & M2 & H).
  apply projections_group_matches in M2. subst g2.
  unfold from_group in H.
  change (bt from_body s2
            (fun g s' =>
               bt (table_group ;; end_group) s'
                 (fun gb sb =>
                    Some (consumed ((w1 ++ w2 ++ s2)) sb
                          :: [w1] ++ [w2] ++ (consumed s2 s' :: g) ++ gb))) =
          Some m) in H.
  apply from_body_greedy in H. destruct H as (w3 & s3 & -> & S3 & H & Hmax).
  apply bt_sound in H. destruct H as (w' & g & s4 & -> & M & [= <-]).
  inversion M as [| |? ? w4 w5 h4 h5 M4 M5| | |]; subst; clear M.
  apply table_group_matches in M4. destruct M4 as [S4 ->].
  apply end_group_matches in M5. destruct M5 as [S5 ->].
  rewrite consumed_app in Hg. simpl in Hg. subst w4.
  destruct (isspace c) eqn:Hc; auto. exfalso.
  specialize (Hmax c ((t ++ w5) ++ s4) eq_refl Hc). revert Hmax.
  apply bt_complete with (g := [t] ++ [w5]); [|discriminate].
  constructor; [|now apply end_group_matches].
  apply table_group_matches. split; auto.
  unfold quote_free in *. simpl in S4. apply andb_true_iff in S4. tauto.
Qed.

(** The captured table text never ends with white space. *)
Lemma table_last s m x c :
  match_at pattern s = Some m -> nth 4 m [] = x ++ [c] -> isspace c = false.
Proof.
  unfold match_at, pattern. intros H Hg.
  apply bt_seq_step in H. destruct H as (w1 & g1 & s1 & -> & M1 & H).
  apply select_group_matches in M1. destruct M1 as [_ ->].
  unfold pattern_tail in H.
  apply bt_seq_step in H. destruct H as (w2 & g2 & s2 & -> & M2 & H).
  apply projections_group_matches in M2. subst g2.
  apply bt_seq_step in H. destruct H as (w3 & g3 & s3 & -> & M3 & H).
  apply from_group_matches in M3. destruct M3 as [_ ->].
  unfold table_group in H.
  apply bt_lazy_group_min in H. destruct H as (w & s' & -> & _ & H & Hmin).
  apply bt_sound in H. destruct H as (w5 & g & s5 & -> & M5 & [= <-]).
  apply end_group_matches in M5. destruct M5 as [S5 ->].
  simpl in Hg. subst w.
  destruct (isspace c) eqn:Hc; auto. exfalso.
  specialize (Hmin x c [] eq_refl). simpl app in Hmin. revert Hmin.
  change (c :: w5 ++ s5) with ((c :: w5) ++ s5).
  apply bt_complete with (g := [c :: w5]); [|discriminate].
  apply end_group_matches. split; auto. now apply end_shape_cons.
Qed.

Lemma lstrip_fixed s :
  (forall c t, s = c :: t -> isspace c = false) -> lstrip s = s.
Proof.
  destruct s as [|c t]; simpl; auto. intros H.
  now rewrite (H c t eq_refl).
Qed.

Lemma strip_fixed s :
  (forall c t, s = c :: t -> isspace c = false) ->
  (forall x c, s = x ++ [c] -> isspace c = false) ->
  strip s = s.
Proof.
  intros Hh Hl. unfold strip, rstrip. rewrite (lstrip_fixed Hh).
  rewrite lstrip_fixed; [apply rev_involutive|].
  intros c t E. apply (Hl (rev t) c).
  rewrite <- (rev_involutive s), E. reflexivity.
Qed.

(** ** The two strip calls of [replace_projections] *)

(** X1: at every match of the pattern the captured projection text and the
    captured table text neither start nor end with white space, so the two
    [strip()] calls on group 2 and group 4 remove nothing: the greedy blanks
    of the groups in front and the lazy repeats leave no blank to them. *)
Theorem captured_groups_stripped (text : str) (m : match_obj) :
  match_at pattern text = Some m ->
  strip (nth 2 m []) = nth 2 m [] /\ strip (nth 4 m []) = nth 4 m [].
Proof.
  intros Hm. split; apply strip_fixed.
  - intros c t E. eapply projection_head; eassumption.
  - intros x c E. eapply projection_last; eassumption.
  - intros c t E. eapply table_head; eassumption.
  - intros x c E. eapply table_last; eassumption.
Qed.

(** X1, witness: the match of the region with the projections [a, b,c]. *)
Lemma captured_groups_stripped_witness :
  match_at pattern abc_input = Some abc_match /\
  strip (nth 2 abc_match []) = nth 2 abc_match [] /\
  strip (nth 4 abc_match []) = nth 4 abc_match [].
Proof.
  assert (Hm : match_at pattern abc_input = Some abc_match)
    by (vm_compute; reflexivity).
  split; [exact Hm|]. apply (captured_groups_stripped abc_input Hm).
Defined.

(** ** Only white space changes *)

Lemma solid_app a b : solid (a ++ b) = solid a ++ solid b.
Proof. apply filter_app. Qed.

Lemma solid_blank l : blank l -> solid l = [].
Proof.
  unfold blank, solid. induction l as [|c l IH]; simpl; auto.
  rewrite andb_true_iff. intros [-> Hl]. simpl. auto.
Qed.

Lemma solid_strip s : solid (strip s) = solid s.
Proof.
  destruct (strip_spec s) as (l & r & E & Hl & Hr).
  rewrite E at 2. rewrite !solid_app, (solid_blank Hl), (solid_blank Hr).
  now rewrite app_nil_r.
Qed.

Lemma solid_join_strip pieces :
  solid (join proj_sep (map strip pieces)) = solid (join [comma] pieces).
Proof.
  induction pieces as [|p pieces IH]; auto.
  destruct pieces as [|q pieces].
  - simpl. apply solid_strip.
  - change (join proj_sep (map strip (p :: q :: pieces)))
      with (strip p ++ proj_sep ++ join proj_sep (map strip (q :: pieces))).
    change (join [comma] (p :: q :: pieces))
      with (p ++ [comma] ++ join [comma] (q :: pieces)).
    rewrite !solid_app, IH, solid_strip. reflexivity.
Qed.

Lemma solid_rewritten g1 g2 g3 g4 g5 :
  solid (rewritten g1 g2 g3 g4 g5) = solid (g1 ++ g2 ++ g3 ++ g4 ++ g5).
Proof.
  unfold rewritten. rewrite format_projections_strip.
  rewrite !solid_app, solid_join_strip, join_split.
  rewrite (solid_blank (blank_spaces 12)).
  change (nl :: spaces 12 ++ strip g4) with ((nl :: spaces 12) ++ strip g4).
  rewrite solid_app, solid_strip.
  assert (B : blank (nl :: spaces 12)) by reflexivity.
  rewrite (solid_blank B). reflexivity.
Qed.

Lemma framed_solid text out : framed text out -> solid out = solid text.
Proof.
  induction 1 as [tail _|gap a g2 g3 g4 b rest out g1 g5 _ _ _ IH]; auto.
  rewrite !solid_app, solid_rewritten, IH, !solid_app.
  now rewrite <- !app_assoc.
Qed.

(** X2: the formatter changes white space only: the characters of the
    output that are not white space are those of the input, in the same
    order (keywords, names, commas and quotes are neither added, dropped
    nor moved). *)
Theorem only_white_space_changes (text out : str) :
  fix_sql_formatting text = inr out -> solid out = solid text.
Proof.
  intros H. destruct (@frame_aux (length text) text (le_n _)) as (out' & E & F).
  rewrite E in H. injection H as <-. now apply framed_solid.
Qed.

(** X2, witness: the scenario. *)
Lemma only_white_space_changes_witness :
  fix_sql_formatting scenario_input = inr scenario_output /\
  solid scenario_output = solid scenario_input.
Proof.
  split; [exact scenario_eval|].
  apply (only_white_space_changes scenario_input). exact scenario_eval.
Defined.

(** ** Texts with fewer than six double quotes *)

Lemma count_quote_app a b :
  count_occ N.eq_dec (a ++ b) quote =
  count_occ N.eq_dec a quote + count_occ N.eq_dec b quote.
Proof. apply count_occ_app. Qed.

Lemma search_true_quotes text :
  search pattern text = true -> 6 <= count_occ N.eq_dec text quote.
Proof.
  intros H. apply search_true_split in H.
  destruct H as (gap & s' & m & -> & Hm & _).
  destruct (@pattern_match_at _ _ Hm)
    as (g1 & g2 & g3 & g4 & g5 & rest & (S1 & _ & _ & S5) & -> & _).
  apply select_shape_quotes in S1. destruct S1 as (a & ->).
  apply end_shape_quotes in S5. destruct S5 as (b & ->).
  rewrite !count_quote_app.
  change (count_occ N.eq_dec triple_quote quote) with 3. lia.
Qed.

(** X3: a text with fewer than six double quote characters holds no region
    (a region needs an opening and a closing triple quote) and is returned
    unchanged. *)
Theorem few_quotes_unchanged (text : str) :
  count_occ N.eq_dec text quote < 6 -> fix_sql_formatting text = inr text.
Proof.
  intros H. apply fix_search_false.
  destruct (search pattern text) eqn:Hs; auto.
  apply search_true_quotes in Hs. lia.
Qed.

(** X3, witness: a literal that is never closed has three double quotes. *)
Lemma few_quotes_unchanged_witness :
  count_occ N.eq_dec unbalanced quote < 6 /\
  fix_sql_formatting unbalanced = inr unbalanced.
Proof.
  assert (H : count_occ N.eq_dec unbalanced quote < 6)
    by (vm_compute; lia).
  split; [exact H|]. apply (few_quotes_unchanged unbalanced H).
Defined.

(** ** Repeated runs *)

Lemma fix_iter_region text n :
  search pattern text = true ->
  exists out, fix_iter n text = inr out /\ search pattern out = true.
Proof.
  intros H. induction n as [|n (out & E & Hs)].
  - exists text. auto.
  - destruct (fix_total out) as (out' & E').
    exists out'. simpl. rewrite E. simpl. split; auto.
    apply (@fix_keeps_region out out'); auto.
Qed.

(** X4: on a text that holds a region no number of runs reaches a fixed
    point: every further run of the formatter changes the text again. *)
Theorem repeated_runs_never_settle (text : str) (n : nat) :
  search pattern text = true -> fix_iter (S n) text <> fix_iter n text.
Proof.
  intros H. destruct (@fix_iter_region text n H) as (out & E & Hs).
  simpl. rewrite E. simpl. now apply fix_changes.
Qed.

(** X4, witness: the third and the fourth run on the scenario. *)
Lemma repeated_runs_never_settle_witness :
  search pattern scenario_input = true /\
  fix_iter 4 scenario_input <> fix_iter 3 scenario_input.
Proof.
  assert (H : search pattern scenario_input = true)
    by (vm_compute; reflexivity).
  split; [exact H|]. apply (@repeated_runs_never_settle scenario_input 3 H).
Defined.

(** ** The driver: exit status and file operations *)

Lemma run_usage argv w :
  length argv <> 2 -> run argv w = ([Ev_print usage], 1%Z).
Proof.
  intros H. unfold run, main, io_bind, print, sys_exit.
  destruct (Nat.eqb_spec (length argv) 2) as [E|_]; [contradiction|].
  reflexivity.
Qed.

Lemma two_args (argv : list str) :
  length argv = 2 -> argv = [nth 0 argv []; nth 1 argv []].
Proof.
  destruct argv as [|a [|b [|c t]]]; simpl; intros H; try discriminate.
  reflexivity.
Qed.

(** X6: a file whose text holds no region is still written: once the read
    has returned a text without a region, the driver opens the file for
    writing and passes to the write exactly the text that the read
    returned; nothing in the driver compares the result with the
    content. *)
Theorem unchanged_file_rewritten (prog path content : str) (w : os) :
  os_read w path = inr content ->
  search pattern content = false ->
  exists rest,
    fst (run [prog; path] w) = Ev_read path :: Ev_write path content :: rest.
Proof.
  intros Hr Hs. rewrite run_two_args, Hr, (fix_search_false _ Hs).
  destruct (os_write w path content); eexists; reflexivity.
Qed.

(** X6, witness: a file with a literal that is never closed, which cannot
    be written. *)
Lemma unchanged_file_rewritten_witness :
  exists rest,
    fst (run [py "fix_sql.py"; py "q.cs"] (os_read_only unbalanced)) =
    Ev_read (py "q.cs") :: Ev_write (py "q.cs") unbalanced :: rest.
Proof.
  apply (@unchanged_file_rewritten (py "fix_sql.py") (py "q.cs") unbalanced
           (os_read_only unbalanced)).
  - reflexivity.
  - vm_compute. reflexivity.
Defined.

(** X7: the driver writes no file but the one it was given, and only after
    it has read it: a write in the trace goes to the path of the single
    argument, comes directly behind the read of that path, and carries the
    text of the formatter for the content that was read. *)
Theorem writes_only_named_file (argv : list str) (w : os) (p d : str) :
  In (Ev_write p d) (fst (run argv w)) ->
  length argv = 2 /\ p = nth 1 argv [] /\
  (exists content,
     os_read w p = inr content /\ fix_sql_formatting content = inr d) /\
  (exists rest, fst (run argv w) = Ev_read p :: Ev_write p d :: rest).
Proof.
  destruct (Nat.eq_dec (length argv) 2) as [E|E].
  - assert (R : run argv w = run [nth 0 argv []; nth 1 argv []] w)
      by (now rewrite <- two_args).
    rewrite R, run_two_args.
    destruct (os_read w (nth 1 argv [])) as [msg|content] eqn:Hr.
    + simpl. intros [H|[H|[]]]; discriminate H.
    + destruct (fix_total content) as (fixed & Hf). rewrite Hf.
      assert (G : Ev_write p d = Ev_write (nth 1 argv []) fixed ->
                  length argv = 2 /\ p = nth 1 argv [] /\
                  (exists content0,
                     os_read w p = inr content0 /\
                     fix_sql_formatting content0 = inr d) /\
                  (forall tl, exists rest,
                     Ev_read (nth 1 argv []) ::
                     Ev_write (nth 1 argv []) fixed :: tl =
                     Ev_read p :: Ev_write p d :: rest)).
      { intros [= -> ->]. split_ands; auto.
        - exists content. auto.
        - intros tl. exists tl. reflexivity. }
      destruct (os_write w (nth 1 argv []) fixed) as [msg|]; simpl;
        intros [H|[H|[H|[]]]]; try discriminate H;
        symmetry in H; destruct (G H) as (H1 & H2 & H3 & H4);
        split_ands; auto; apply H4.
  - rewrite (@run_usage argv w E). simpl. intros [H|[]]. discriminate H.
Qed.

(** X7, witness: the write of the run on the scenario. *)
Lemma writes_only_named_file_witness :
  length [py "fix_sql.py"; py "q.cs"] = 2 /\
  py "q.cs" = nth 1 [py "fix_sql.py"; py "q.cs"] [] /\
  (exists content,
     os_read (os_ok scenario_input) (py "q.cs") = inr content /\
     fix_sql_formatting content = inr scenario_output) /\
  (exists rest,
     fst (run [py "fix_sql.py"; py "q.cs"] (os_ok scenario_input)) =
     Ev_read (py "q.cs") :: Ev_write (py "q.cs") scenario_output :: rest).
Proof.
  apply (@writes_only_named_file [py "fix_sql.py"; py "q.cs"]
           (os_ok scenario_input) (py "q.cs") scenario_output).
  vm_compute. right. left. reflexivity.
Defined.

(** * The region that a match takes *)

(** ** Every match is the preferred region *)

Lemma bt_seq_grp {A} r1 r2 s (k : list str -> str -> option A) :
  bt (Seq (Grp r1) r2) s k =
  bt r1 s (fun g s' =>
             bt r2 s' (fun g2 s2 => k ((consumed s s' :: g) ++ g2) s2)).
Proof. reflexivity. Qed.

Lemma blank_quote_free w : blank w -> quote_free w.
Proof.
  unfold blank, quote_free. induction w as [|c w IH]; simpl; auto.
  rewrite !andb_true_iff. intros [H1 H2]. split; auto using isspace_quote.
Qed.

Lemma quote_free_app a b : quote_free (a ++ b) <-> quote_free a /\ quote_free b.
Proof.
  unfold quote_free. rewrite forallb_app, andb_true_iff. tauto.
Qed.

Lemma tail_at_match {A} (k : list str -> str -> option A) t :
  (forall g s, k g s <> None) -> tail_at t -> bt pattern_tail t k <> None.
Proof.
  intros Hk (g2 & g3 & g4 & g5 & rest & S3 & S4 & S5 & ->).
  replace (g2 ++ g3 ++ g4 ++ g5 ++ rest)
    with ((g2 ++ g3 ++ g4 ++ g5) ++ rest) by now rewrite <- !app_assoc.
  apply bt_complete with (g := [g2] ++ [g3] ++ [g4] ++ [g5]); auto.
  unfold pattern_tail. constructor; [now apply projections_group_matches|].
  now apply matches_after_projections.
Qed.

Lemma from_at_match {A} (k : list str -> str -> option A) t :
  (forall g s, k g s <> None) -> from_at t ->
  bt (from_group ;; table_group ;; end_group) t k <> None.
Proof.
  intros Hk (g3 & g4 & g5 & rest & S3 & S4 & S5 & ->).
  replace (g3 ++ g4 ++ g5 ++ rest)
    with ((g3 ++ g4 ++ g5) ++ rest) by now rewrite <- !app_assoc.
  apply bt_complete with (g := [g3] ++ [g4] ++ [g5]); auto.
  now apply matches_after_projections.
Qed.

Lemma table_at_match {A} (k : list str -> str -> option A) t :
  (forall g s, k g s <> None) -> table_at t ->
  bt (table_group ;; end_group) t k <> None.
Proof.
  intros Hk (g4 & g5 & rest & S4 & S5 & ->).
  replace (g4 ++ g5 ++ rest) with ((g4 ++ g5) ++ rest)
    by now rewrite <- !app_assoc.
  apply bt_complete with (g := [g4] ++ [g5]); auto.
  constructor; [now apply table_group_matches|now apply end_group_matches].
Qed.

Lemma end_at_match {A} (k : list str -> str -> option A) t :
  (forall g s, k g s <> None) -> end_at t -> bt end_group t k <> None.
Proof.
  intros Hk (g5 & rest & S5 & ->).
  apply bt_complete with (g := [g5]); auto. now apply end_group_matches.
Qed.

(** A match is a region at the front of the text, and it is the region
    that the order of the alternatives prefers. *)
Lemma match_preferred text m :
  match_at pattern text = Some m ->
  exists g1 g2 g3 g4 g5 rest,
    region g1 g2 g3 g4 g5 /\ preferred g2 g3 g4 g5 rest /\
    text = g1 ++ g2 ++ g3 ++ g4 ++ g5 ++ rest /\
    m = [g1 ++ g2 ++ g3 ++ g4 ++ g5; g1; g2; g3; g4; g5].
Proof.
  unfold match_at, pattern, select_group. intros H.
  rewrite bt_seq_grp in H.
  apply select_body_greedy in H.
  destruct H as (w1 & s1 & -> & S1 & H & Hmax1).
  unfold pattern_tail, projections_group in H.
  apply bt_lazy_group_min in H.
  destruct H as (w2 & s2 & -> & _ & H & Hmin2).
  unfold from_group in H. rewrite bt_seq_grp in H.
  apply from_body_greedy in H.
  destruct H as (w3 & s3 & -> & S3 & H & Hmax3).
  unfold table_group in H.
  apply bt_lazy_group_min in H.
  destruct H as (w4 & s4 & -> & S4 & H & Hmin4).
  apply bt_sound in H. destruct H as (w5 & g & s5 & -> & M5 & H).
  apply end_group_matches in M5. destruct M5 as [S5 ->].
  exists w1, w2, w3, w4, w5, s5. split_ands; auto.
  - unfold region. auto.
  - unfold preferred. split_ands.
    + intros c t E Hc Ht. specialize (Hmax1 c t E Hc). revert Hmax1.
      apply tail_at_match; [discriminate|exact Ht].
    + intros p c q E Hf. specialize (Hmin2 p c q E). revert Hmin2.
      apply from_at_match; [discriminate|exact Hf].
    + intros c t E Hc Ht. specialize (Hmax3 c t E Hc). revert Hmax3.
      apply table_at_match; [discriminate|exact Ht].
    + intros p c q E He. specialize (Hmin4 p c q E). revert Hmin4.
      apply end_at_match; [discriminate|exact He].
  - injection H as <-. rewrite !consumed_app.
    replace (w1 ++ w2 ++ w3 ++ w4 ++ w5 ++ s5)
      with ((w1 ++ w2 ++ w3 ++ w4 ++ w5) ++ s5)
      by now rewrite <- !app_assoc.
    rewrite consumed_app. reflexivity.
Qed.

(** ** The preferred region is unique *)

Lemma blank_app_l a b : blank (a ++ b) -> blank a.
Proof. intros H. now apply blank_app in H. Qed.

Lemma blank_app_r a b : blank (a ++ b) -> blank b.
Proof. intros H. now apply blank_app in H. Qed.

Lemma blank_head c l : blank (c :: l) -> isspace c = true /\ blank l.
Proof. unfold blank. simpl. now rewrite andb_true_iff. Qed.

(** A group of the first shape: the quotes, blanks, SELECT, blanks. *)
Lemma select_shape_runs g :
  select_shape g ->
  exists u v, blank u /\ blank v /\ g = triple_quote ++ u ++ py "SELECT" ++ v.
Proof.
  intros (a & b & c & d & Ha & Hb & Hc & Hd & ->).
  exists (a ++ [nl] ++ b), (c ++ [nl] ++ d). split_ands.
  - repeat (apply blank_app; split); auto; reflexivity.
  - repeat (apply blank_app; split); auto; reflexivity.
  - now rewrite <- !app_assoc.
Qed.

Lemma from_shape_runs g :
  from_shape g ->
  exists u v, blank u /\ blank v /\ g = u ++ py "FROM" ++ v.
Proof.
  intros (a & b & c & Ha & Hb & Hc & _ & ->).
  exists (a ++ [nl] ++ b), c. split_ands; auto.
  - repeat (apply blank_app; split); auto; reflexivity.
  - now rewrite <- !app_assoc.
Qed.

Lemma end_shape_runs g :
  end_shape g -> exists u, blank u /\ g = u ++ triple_quote.
Proof.
  intros (a & b & Ha & Hb & ->). exists (a ++ [nl] ++ b). split.
  - repeat (apply blank_app; split); auto; reflexivity.
  - now rewrite <- !app_assoc.
Qed.

Lemma tail_at_app x s : tail_at s -> tail_at (x ++ s).
Proof.
  intros (g2 & g3 & g4 & g5 & rest & S3 & S4 & S5 & ->).
  exists (x ++ g2), g3, g4, g5, rest. split_ands; auto.
  now rewrite <- app_assoc.
Qed.

Lemma from_at_tail s : from_at s -> tail_at s.
Proof.
  intros (g3 & g4 & g5 & rest & S3 & S4 & S5 & ->).
  exists [], g3, g4, g5, rest. auto.
Qed.

Lemma table_at_blank x s : blank x -> table_at s -> table_at (x ++ s).
Proof.
  intros Hx (g4 & g5 & rest & S4 & S5 & ->).
  exists (x ++ g4), g5, rest. split_ands; auto.
  - apply quote_free_app. split; auto. now apply blank_quote_free.
  - now rewrite <- app_assoc.
Qed.

(** Two splits of a text into a preferred kind of front and a rest: the
    fronts differ by a run [l], which one of the rests starts with. *)
Lemma region_unique g1 g2 g3 g4 g5 rest h1 h2 h3 h4 h5 rest' :
  region g1 g2 g3 g4 g5 -> preferred g2 g3 g4 g5 rest ->
  region h1 h2 h3 h4 h5 -> preferred h2 h3 h4 h5 rest' ->
  g1 ++ g2 ++ g3 ++ g4 ++ g5 ++ rest = h1 ++ h2 ++ h3 ++ h4 ++ h5 ++ rest' ->
  g1 = h1 /\ g2 = h2 /\ g3 = h3 /\ g4 = h4 /\ g5 = h5 /\ rest = rest'.
Proof.
  intros (S1 & S3 & S4 & S5) (P1 & P2 & P3 & P4)
         (T1 & T3 & T4 & T5) (Q1 & Q2 & Q3 & Q4) E.
  assert (Tg : tail_at (g2 ++ g3 ++ g4 ++ g5 ++ rest))
    by (exists g2, g3, g4, g5, rest; auto).
  assert (Th : tail_at (h2 ++ h3 ++ h4 ++ h5 ++ rest'))
    by (exists h2, h3, h4, h5, rest'; auto).
  assert (Fg : from_at (g3 ++ g4 ++ g5 ++ rest))
    by (exists g3, g4, g5, rest; auto).
  assert (Fh : from_at (h3 ++ h4 ++ h5 ++ rest'))
    by (exists h3, h4, h5, rest'; auto).
  assert (Bg : table_at (g4 ++ g5 ++ rest))
    by (exists g4, g5, rest; auto).
  assert (Bh : table_at (h4 ++ h5 ++ rest'))
    by (exists h4, h5, rest'; auto).
  assert (Eg : end_at (g5 ++ rest)) by (exists g5, rest; auto).
  assert (Eh : end_at (h5 ++ rest')) by (exists h5, rest'; auto).
  (* the first group *)
  assert (E1 : g1 = h1 /\
               g2 ++ g3 ++ g4 ++ g5 ++ rest = h2 ++ h3 ++ h4 ++ h5 ++ rest').
  { destruct (select_shape_runs S1) as (u & v & Hu & Hv & ->).
    destruct (select_shape_runs T1) as (u' & v' & Hu' & Hv' & ->).
    rewrite <- !app_assoc in E. apply app_inv_head in E.
    assert (Eu : u = u').
    { eapply (@blank_prefix_unique u u' 83%N 83%N); [| | | |exact E]; auto. }
    subst u'. apply app_inv_head in E.
    apply app_inv_head in E.
    apply app_eq_app in E. destruct E as (l & [[-> E]|[-> E]]).
    - destruct l as [|c l].
      + simpl in E. rewrite app_nil_r. auto.
      + exfalso. apply blank_app_r, blank_head in Hv. destruct Hv as [Hc _].
        apply (Q1 c (l ++ g2 ++ g3 ++ g4 ++ g5 ++ rest)); auto.
        now apply tail_at_app.
    - destruct l as [|c l].
      + simpl in E. rewrite app_nil_r. auto.
      + exfalso. apply blank_app_r, blank_head in Hv'.
        destruct Hv' as [Hc _].
        apply (P1 c (l ++ h2 ++ h3 ++ h4 ++ h5 ++ rest')); auto.
        now apply tail_at_app. }
  destruct E1 as [<- E1]. clear E.
  (* the projections *)
  assert (E2 : g2 = h2 /\ g3 ++ g4 ++ g5 ++ rest = h3 ++ h4 ++ h5 ++ rest').
  { apply app_eq_app in E1. destruct E1 as (l & [[-> E]|[-> E]]).
    - destruct l as [|c l].
      + simpl in E. rewrite app_nil_r. auto.
      + exfalso. apply (P2 h2 c l eq_refl).
        change (c :: l ++ ?x) with ((c :: l) ++ x). now rewrite <- E.
    - destruct l as [|c l].
      + simpl in E. rewrite app_nil_r. auto.
      + exfalso. apply (Q2 g2 c l eq_refl).
        change (c :: l ++ ?x) with ((c :: l) ++ x). now rewrite <- E. }
  destruct E2 as [<- E2]. clear E1.
  (* the FROM clause *)
  assert (E3 : g3 = h3 /\ g4 ++ g5 ++ rest = h4 ++ h5 ++ rest').
  { destruct (from_shape_runs S3) as (u & v & Hu & Hv & ->).
    destruct (from_shape_runs T3) as (u' & v' & Hu' & Hv' & ->).
    rewrite <- !app_assoc in E2.
    assert (Eu : u = u').
    { eapply (@blank_prefix_unique u u' 70%N 70%N); [| | | |exact E2]; auto. }
    subst u'. apply app_inv_head in E2.
    apply app_inv_head in E2.
    apply app_eq_app in E2. destruct E2 as (l & [[-> E]|[-> E]]).
    - destruct l as [|c l].
      + simpl in E. rewrite app_nil_r. auto.
      + exfalso. apply blank_app_r, blank_head in Hv.
        destruct Hv as [Hc Hl].
        apply (Q3 c (l ++ g4 ++ g5 ++ rest)); auto.
        now apply table_at_blank.
    - destruct l as [|c l].
      + simpl in E. rewrite app_nil_r. auto.
      + exfalso. apply blank_app_r, blank_head in Hv'.
        destruct Hv' as [Hc Hl].
        apply (P3 c (l ++ h4 ++ h5 ++ rest')); auto.
        now apply table_at_blank. }
  destruct E3 as [<- E3]. clear E2.
  (* the table *)
  assert (E4 : g4 = h4 /\ g5 ++ rest = h5 ++ rest').
  { apply app_eq_app in E3. destruct E3 as (l & [[-> E]|[-> E]]).
    - destruct l as [|c l].
      + simpl in E. rewrite app_nil_r. auto.
      + exfalso. apply (P4 h4 c l eq_refl).
        change (c :: l ++ ?x) with ((c :: l) ++ x). now rewrite <- E.
    - destruct l as [|c l].
      + simpl in E. rewrite app_nil_r. auto.
      + exfalso. apply (Q4 g4 c l eq_refl).
        change (c :: l ++ ?x) with ((c :: l) ++ x). now rewrite <- E. }
  destruct E4 as [<- E4]. clear E3.
  (* the end *)
  destruct (end_shape_runs S5) as (u & Hu & ->).
  destruct (end_shape_runs T5) as (u' & Hu' & ->).
  rewrite <- !app_assoc in E4.
  assert (Eu : u = u').
  { eapply (@blank_prefix_unique u u' quote quote); [| | | |exact E4]; auto. }
  subst u'. apply app_inv_head in E4.
  apply app_inv_head in E4. split_ands; auto.
Qed.

(** The preferred region at the front of a text is what the pattern
    matches there. *)
Lemma preferred_match g1 g2 g3 g4 g5 rest :
  region g1 g2 g3 g4 g5 -> preferred g2 g3 g4 g5 rest ->
  match_at pattern (g1 ++ g2 ++ g3 ++ g4 ++ g5 ++ rest) =
  Some [g1 ++ g2 ++ g3 ++ g4 ++ g5; g1; g2; g3; g4; g5].
Proof.
  intros R P.
  pose proof (@region_match_at g1 g2 g3 g4 g5 rest R) as H.
  destruct (match_at pattern _) as [m|] eqn:Hm; [|congruence]. clear H.
  destruct (@match_preferred _ _ Hm)
    as (h1 & h2 & h3 & h4 & h5 & rest' & R' & P' & E & ->).
  destruct (@region_unique g1 g2 g3 g4 g5 rest h1 h2 h3 h4 h5 rest'
              R P R' P' E) as (<- & <- & <- & <- & <- & <-).
  reflexivity.
Qed.

(** ** Regions written with trimmed projections and table *)

Lemma prefixb_app p r : prefixb p (p ++ r) = true.
Proof.
  induction p as [|c p IH]; simpl; [now destruct r|].
  now rewrite N.eqb_refl.
Qed.

Lemma containsb_app p l r : containsb p (l ++ p ++ r) = true.
Proof.
  induction l as [|c l IH].
  - simpl app. destruct (p ++ r) eqn:E; simpl; rewrite <- E;
      now rewrite prefixb_app.
  - simpl. rewrite IH. apply orb_true_r.
Qed.

Lemma trimmedb_head s :
  trimmedb s = true -> exists c t, s = c :: t /\ isspace c = false.
Proof.
  destruct s as [|c t]; [discriminate|]. unfold trimmedb.
  rewrite andb_true_iff, negb_true_iff. intros [H _]. eauto.
Qed.

Lemma last_blank_suffix p c q d :
  blank (c :: q) -> isspace (last (p ++ c :: q) d) = true.
Proof.
  intros H. induction p as [|x p IH].
  - simpl app. revert c H. induction q as [|y q IHq]; intros c H.
    + apply blank_head in H. simpl. tauto.
    + apply blank_head in H. destruct H as [_ H].
      change (last (c :: y :: q) d) with (last (y :: q) d). auto.
  - change (last ((x :: p) ++ c :: q) d) with (last (x :: p ++ c :: q) d).
    destruct (p ++ c :: q) eqn:E; [now destruct p|]. exact IH.
Qed.

(** A suffix of a trimmed text starts, behind blanks, with a character that
    is not white space. *)
Lemma trimmedb_suffix s p c q :
  trimmedb s = true -> s = p ++ c :: q ->
  exists bl n r, blank bl /\ isspace n = false /\ c :: q = bl ++ n :: r.
Proof.
  intros Ht E. destruct (lstrip_spec (c :: q)) as (bl & E' & Hbl & Hs).
  destruct Hs as [Hs|(n & r & Hs & Hn)].
  - exfalso. rewrite Hs, app_nil_r in E'. subst bl.
    destruct s as [|x t]; [discriminate|]. unfold trimmedb in Ht.
    rewrite andb_true_iff, !negb_true_iff in Ht. destruct Ht as [_ Ht].
    rewrite E, (last_blank_suffix p x Hbl) in Ht. discriminate.
  - exists bl, n, r. split_ands; auto. now rewrite <- Hs.
Qed.

Lemma from_shape_head g :
  from_shape g -> exists c t, g = c :: t /\ isspace c = true.
Proof.
  intros (a & b & d & Ha & _ & _ & _ & ->). destruct a as [|x a].
  - exists nl. eexists. split; reflexivity.
  - apply blank_head in Ha. destruct Ha as [Hx _].
    exists x. eexists. split; [reflexivity|exact Hx].
Qed.

(** A region whose projection text is trimmed and holds no FROM, and whose
    table is trimmed, is the preferred one. *)
Lemma trimmed_preferred g1 g2 g3 g4 g5 rest :
  region g1 g2 g3 g4 g5 ->
  trimmedb g2 = true -> containsb (py "FROM") g2 = false ->
  trimmedb g4 = true ->
  preferred g2 g3 g4 g5 rest.
Proof.
  intros (S1 & S3 & S4 & S5) H2 HF H4. unfold preferred. split_ands.
  - intros c t E Hc _. destruct (trimmedb_head _ H2) as (x & y & -> & Hx).
    injection E as -> _. congruence.
  - intros p c q E (k3 & k4 & k5 & rest' & K3 & _ & _ & Ek).
    destruct (@trimmedb_suffix g2 p c q H2 E) as (bl & n & r & Hbl & Hn & Eq).
    destruct (from_shape_runs K3) as (u & v & Hu & _ & ->).
    destruct (from_shape_head S3) as (x & y & -> & Hx).
    change (c :: q ++ ?z) with ((c :: q) ++ z) in Ek. rewrite Eq in Ek.
    rewrite <- !app_assoc in Ek. simpl in Ek.
    assert (Eu : bl = u).
    { eapply (@blank_prefix_unique bl u n 70%N); [| | | |exact Ek]; auto. }
    subst u. apply app_inv_head in Ek. injection Ek as -> Ek.
    destruct r as [|r1 [|r2 [|r3 r']]]; simpl in Ek.
    + injection Ek as -> _. discriminate Hx.
    + injection Ek as _ -> _. discriminate Hx.
    + injection Ek as _ _ -> _. discriminate Hx.
    + injection Ek as -> -> -> _.
      assert (C : containsb (py "FROM") g2 = true).
      { rewrite E, Eq. change (70%N :: 82%N :: 79%N :: 77%N :: r')
          with (py "FROM" ++ r').
        rewrite app_assoc. apply containsb_app. }
      congruence.
  - intros c t E Hc _. destruct (trimmedb_head _ H4) as (x & y & -> & Hx).
    injection E as -> _. congruence.
  - intros p c q E (k5 & rest' & K5 & Ek).
    destruct (@trimmedb_suffix g4 p c q H4 E) as (bl & n & r & Hbl & Hn & Eq).
    destruct (end_shape_runs K5) as (u & Hu & ->).
    change (c :: q ++ ?z) with ((c :: q) ++ z) in Ek. rewrite Eq in Ek.
    rewrite <- !app_assoc in Ek. simpl in Ek.
    assert (Eu : bl = u).
    { eapply (@blank_prefix_unique bl u n quote); [| | | |exact Ek]; auto. }
    subst u. apply app_inv_head in Ek. injection Ek as -> _.
    rewrite E, Eq in S4. unfold quote_free in S4.
    rewrite !forallb_app in S4. simpl in S4.
    rewrite !andb_true_iff in S4. destruct S4 as (_ & _ & S4).
    discriminate S4.
Qed.

(** ** The matching rule *)

(** C3, amended: a text that starts with a region - the opening quotes,
    white space with a newline in it, SELECT, white space with a newline in
    it, a projection text that is not empty, has no white space at its ends
    and holds no FROM (the lazy run up to the first FROM), white space with
    a newline in it, FROM, at least one character of white space, a table
    that is not empty, holds no double quote and has no white space at its
    ends, white space with a newline in it, the closing quotes - is matched
    at its front with exactly these five groups, and the formatter rewrites
    exactly that region and goes on behind it.  A newline is thus required
    behind the opening quotes and behind SELECT; and every match of the
    pattern is the region that the order of the alternatives prefers:
    greedy blanks, lazy projections, lazy table. *)
Theorem region_matched_and_rewritten (g1 g2 g3 g4 g5 rest : str) :
  region g1 g2 g3 g4 g5 ->
  trimmedb g2 = true -> containsb (py "FROM") g2 = false ->
  trimmedb g4 = true ->
  match_at pattern (g1 ++ g2 ++ g3 ++ g4 ++ g5 ++ rest) =
    Some [g1 ++ g2 ++ g3 ++ g4 ++ g5; g1; g2; g3; g4; g5] /\
  (exists out,
     fix_sql_formatting rest = inr out /\
     fix_sql_formatting (g1 ++ g2 ++ g3 ++ g4 ++ g5 ++ rest) =
       inr (rewritten g1 g2 g3 g4 g5 ++ out)) /\
  (forall text m,
     match_at pattern text = Some m ->
     exists h1 h2 h3 h4 h5 rest',
       region h1 h2 h3 h4 h5 /\ preferred h2 h3 h4 h5 rest' /\
       text = h1 ++ h2 ++ h3 ++ h4 ++ h5 ++ rest' /\
       m = [h1 ++ h2 ++ h3 ++ h4 ++ h5; h1; h2; h3; h4; h5]).
Proof.
  intros R H2 HF H4.
  assert (Hm : match_at pattern (g1 ++ g2 ++ g3 ++ g4 ++ g5 ++ rest) =
               Some [g1 ++ g2 ++ g3 ++ g4 ++ g5; g1; g2; g3; g4; g5]).
  { apply preferred_match; auto. now apply (@trimmed_preferred g1). }
  split_ands.
  - exact Hm.
  - destruct (@fix_match _ _ Hm)
      as (h1 & h2 & h3 & h4 & h5 & rest' & _ & E & Em & F).
    injection Em as _ <- <- <- <- <-.
    rewrite !app_assoc in E. apply app_inv_head in E. subst rest'.
    destruct (fix_total rest) as (out & Hout).
    exists out. split; auto. rewrite F, Hout. reflexivity.
  - intros text m H. now apply match_preferred.
Qed.

(** C3, witness: the region of the scenario. *)
Lemma region_matched_and_rewritten_witness :
  match_at pattern
    (scenario_g1 ++ scenario_g2 ++ scenario_g3 ++ scenario_g4 ++
     scenario_g5 ++ py ";") =
    Some [scenario_g1 ++ scenario_g2 ++ scenario_g3 ++ scenario_g4 ++
          scenario_g5;
          scenario_g1; scenario_g2; scenario_g3; scenario_g4; scenario_g5] /\
  (exists out,
     fix_sql_formatting (py ";") = inr out /\
     fix_sql_formatting
       (scenario_g1 ++ scenario_g2 ++ scenario_g3 ++ scenario_g4 ++
        scenario_g5 ++ py ";") =
       inr (rewritten scenario_g1 scenario_g2 scenario_g3 scenario_g4
              scenario_g5 ++ out)).
Proof.
  assert (R : region scenario_g1 scenario_g2 scenario_g3 scenario_g4
                scenario_g5).
  { unfold region. split_ands.
    - exists [], (spaces 4), [], (spaces 8). split_ands; reflexivity.
    - exists [], (spaces 4), (spaces 2). split_ands; try reflexivity.
      discriminate.
    - reflexivity.
    - exists [], (spaces 4). split_ands; reflexivity. }
  destruct (@region_matched_and_rewritten
              scenario_g1 scenario_g2 scenario_g3 scenario_g4 scenario_g5
              (py ";") R eq_refl eq_refl eq_refl) as (Hm & Hf & _).
  split; assumption.
Defined.
